(** * Terrain analysis: slope, aspect, ruggedness and colour classification

    A shallow embedding of [scripts/compute_terrain_analysis.py].

    Numbers.  A numpy float64 cell is modelled as a real number or the
    not-a-number marker [NaN]: arithmetic is exact, and rounding, overflow
    and the infinities are not modelled.  The cell size is a positive real
    (the kernels divide by it).

    Arrays.  A two-dimensional array is a list of rows.  Its shape is the
    number of rows and the length of the first row; every array the
    functions build is rectangular.

    The library call [scipy.ndimage.convolve(a, w, mode='constant', cval=v)]
    is modelled after the library: it is [correlate] with the weights
    reversed along both axes, weights whose magnitude does not exceed
    [DBL_EPSILON] are left out of the filter footprint, and neighbours
    outside the array read as [v].

    The [logger] calls only print and are left out of the functions; the
    one thing a log line can do to a caller, the ValueError of its
    reductions on a zero-size array, is modelled by [log_statistics] and
    the two [_call] definitions.  [save_raster] is modelled by the list of
    the files written. *)

From Stdlib Require Import Reals Lra Lia ZArith List String Bool.
Import ListNotations.

Open Scope R_scope.

(** ** Cell values *)

Inductive fval : Type :=
| NaN : fval
| Fin : R -> fval.

Definition lift1 (f : R -> R) (a : fval) : fval :=
  match a with
  | Fin x => Fin (f x)
  | NaN => NaN
  end.

Definition lift2 (f : R -> R -> R) (a b : fval) : fval :=
  match a, b with
  | Fin x, Fin y => Fin (f x y)
  | _, _ => NaN
  end.

Definition fadd : fval -> fval -> fval := lift2 Rplus.
Definition fsub : fval -> fval -> fval := lift2 Rminus.
Definition fmul : fval -> fval -> fval := lift2 Rmult.
Definition fneg : fval -> fval := lift1 Ropp.

(** [x ** 2] *)
Definition fsqr : fval -> fval := lift1 (fun x => x * x).

(** [np.sqrt]: not-a-number below zero. *)
Definition fsqrt (a : fval) : fval :=
  match a with
  | Fin x => if Rlt_dec x 0 then NaN else Fin (sqrt x)
  | NaN => NaN
  end.

(** [np.arctan] *)
Definition farctan : fval -> fval := lift1 atan.

(** [np.degrees] *)
Definition degrees (x : R) : R := x * (180 / PI).
Definition fdegrees : fval -> fval := lift1 degrees.

(** The two-argument arctangent, with values in (-PI, PI]. *)
Definition Ratan2 (y x : R) : R :=
  if Rlt_dec 0 x then atan (y / x)
  else if Rlt_dec x 0 then
         (if Rle_dec 0 y then atan (y / x) + PI else atan (y / x) - PI)
  else if Rlt_dec 0 y then PI / 2
  else if Rlt_dec y 0 then - (PI / 2)
  else 0.

(** [np.arctan2] *)
Definition farctan2 : fval -> fval -> fval := lift2 Ratan2.

(** Python's and numpy's [%] on floats: the remainder of floored division. *)
Definition Rmod (x m : R) : R := x - IZR (Int_part (x / m)) * m.
Definition fmod (a : fval) (m : R) : fval := lift1 (fun x => Rmod x m) a.

(** Comparisons: anything compared with [NaN] is false. *)
Definition flt (a : fval) (y : R) : bool :=
  match a with
  | Fin x => if Rlt_dec x y then true else false
  | NaN => false
  end.

Definition fge (a : fval) (y : R) : bool :=
  match a with
  | Fin x => if Rle_dec y x then true else false
  | NaN => false
  end.

Definition feq (a : fval) (y : R) : bool :=
  match a with
  | Fin x => if Req_dec_T x y then true else false
  | NaN => false
  end.

(** ** Arrays *)

Definition grid (A : Type) : Type := list (list A).

Definition nrows {A} (g : grid A) : nat := List.length g.
Definition ncols {A} (g : grid A) : nat := List.length (hd [] g).

(** [g[r, c]] for an index inside the array. *)
Definition cell {A} (d : A) (g : grid A) (r c : nat) : A :=
  nth c (nth r g []) d.

(** An array of the given shape, filled cell by cell. *)
Definition tabulate {A} (h w : nat) (f : nat -> nat -> A) : grid A :=
  map (fun r => map (fun c => f r c) (seq 0 w)) (seq 0 h).

(** Element-wise operations on arrays of one shape. *)
Fixpoint zip_with {A B C} (f : A -> B -> C) (xs : list A) (ys : list B)
  : list C :=
  match xs, ys with
  | x :: xs', y :: ys' => f x y :: zip_with f xs' ys'
  | _, _ => []
  end.

Definition map_grid {A B} (f : A -> B) (g : grid A) : grid B :=
  map (map f) g.

Definition map2_grid {A B C} (f : A -> B -> C) (g1 : grid A) (g2 : grid B)
  : grid C :=
  zip_with (zip_with f) g1 g2.

(** Every row has the same length [w]. *)
Definition rect {A} (h w : nat) (g : grid A) : Prop :=
  List.length g = h /\ Forall (fun row => List.length row = w) g.

(** ** scipy.ndimage.convolve *)

Definition kernel : Type := list (list R).

Definition weight (k : kernel) (i j : nat) : R := nth j (nth i k []) 0.

Definition DBL_EPSILON : R := / 2 ^ 52.

(** The filter footprint keeps the weights with [fabs(w) > DBL_EPSILON]. *)
Definition in_footprint (w : R) : bool :=
  if Rlt_dec DBL_EPSILON (Rabs w) then true else false.

(** Reading with [mode='constant']: [cval] outside the array. *)
Definition padded (g : grid fval) (cval : fval) (r c : Z) : fval :=
  if ((0 <=? r)%Z && (r <? Z.of_nat (nrows g))%Z
      && (0 <=? c)%Z && (c <? Z.of_nat (ncols g))%Z)%bool
  then cell NaN g (Z.to_nat r) (Z.to_nat c)
  else cval.

(** The positions of a 3x3 filter, row by row. *)
Definition taps : list (nat * nat) :=
  [(0, 0); (0, 1); (0, 2); (1, 0); (1, 1); (1, 2); (2, 0); (2, 1); (2, 2)]%nat.

(** One output cell of [correlate]: the weighted sum over the footprint,
    the filter centred on the cell. *)
Definition correlate_point (g : grid fval) (k : kernel) (cval : fval)
  (r c : nat) : fval :=
  fold_left
    (fun res '(i, j) =>
       let w := weight k i j in
       if in_footprint w
       then fadd res (fmul (Fin w)
                        (padded g cval (Z.of_nat r + Z.of_nat i - 1)
                                       (Z.of_nat c + Z.of_nat j - 1)))
       else res)
    taps (Fin 0).

Definition correlate (g : grid fval) (k : kernel) (cval : fval) : grid fval :=
  tabulate (nrows g) (ncols g) (correlate_point g k cval).

(** [weights[::-1, ::-1]] *)
Definition flip (k : kernel) : kernel := rev (map (@rev R) k).

Definition convolve (g : grid fval) (k : kernel) (cval : fval) : grid fval :=
  correlate g (flip k) cval.

(** ** Errors *)

Inductive result (A : Type) : Type :=
| Ok : A -> result A
| ValueError : string -> result A.
Arguments Ok {A} _.
Arguments ValueError {A} _.

Definition bind {A B} (m : result A) (f : A -> result B) : result B :=
  match m with
  | Ok a => f a
  | ValueError msg => ValueError msg
  end.

Notation "x <- m ;; k" := (bind m (fun x => k))
  (at level 61, m at next level, right associativity).

(** ** compute_slope *)

Definition scale (k : kernel) (d : R) : kernel := map (map (fun w => w / d)) k.

Definition zt_kernel_x (cellsize : R) : kernel :=
  scale [[-1; 0; 1]; [-2; 0; 2]; [-1; 0; 1]] (8 * cellsize).
Definition zt_kernel_y (cellsize : R) : kernel :=
  scale [[-1; -2; -1]; [0; 0; 0]; [1; 2; 1]] (8 * cellsize).
Definition horn_kernel_x (cellsize : R) : kernel :=
  scale [[-1; 0; 1]; [-1; 0; 1]; [-1; 0; 1]] (6 * cellsize).
Definition horn_kernel_y (cellsize : R) : kernel :=
  scale [[-1; -1; -1]; [0; 0; 0]; [1; 1; 1]] (6 * cellsize).

(** The kernel pair chosen by the algorithm name, or the error raised. *)
Definition slope_kernels (cellsize : R) (algorithm : string)
  : result (kernel * kernel) :=
  if String.eqb algorithm "zevenbergen_thorne"%string then
    Ok (zt_kernel_x cellsize, zt_kernel_y cellsize)
  else if String.eqb algorithm "horn"%string then
    Ok (horn_kernel_x cellsize, horn_kernel_y cellsize)
  else ValueError ("Unknown algorithm: " ++ algorithm)%string.

(** [degrees(arctan(sqrt(gx**2 + gy**2)))] *)
Definition slope_of (gx gy : fval) : fval :=
  fdegrees (farctan (fsqrt (fadd (fsqr gx) (fsqr gy)))).

Definition compute_slope (dtm : grid fval) (cellsize : R) (algorithm : string)
  : result (grid fval) :=
  kernels <- slope_kernels cellsize algorithm ;;
  let '(kernel_x, kernel_y) := kernels in
  let grad_x := convolve dtm kernel_x NaN in
  let grad_y := convolve dtm kernel_y NaN in
  Ok (map2_grid slope_of grad_x grad_y).

(** ** compute_aspect *)

(** [(degrees(arctan2(gy, -gx)) + 360) % 360] *)
Definition aspect_of (gx gy : fval) : fval :=
  fmod (fadd (fdegrees (farctan2 gy (fneg gx))) (Fin 360)) 360.

(** [np.where(slope_deg < 1.0, -1, aspect_deg)] at one cell. *)
Definition where_flat (slope_deg aspect_deg : fval) : fval :=
  if flt slope_deg 1 then Fin (-1) else aspect_deg.

Definition compute_aspect (dtm : grid fval) (cellsize : R) : grid fval :=
  let kernel_x := zt_kernel_x cellsize in
  let kernel_y := zt_kernel_y cellsize in
  let grad_x := convolve dtm kernel_x NaN in
  let grad_y := convolve dtm kernel_y NaN in
  let aspect_deg := map2_grid aspect_of grad_x grad_y in
  let slope_deg := map2_grid slope_of grad_x grad_y in
  map2_grid where_flat slope_deg aspect_deg.

(** ** compute_tri *)

(** [l[n] = v] for an index inside the list (the loops below never leave
    the array; an index outside would raise IndexError in Python). *)
Fixpoint set_nth {A} (n : nat) (v : A) (l : list A) : list A :=
  match l, n with
  | [], _ => []
  | _ :: l', O => v :: l'
  | x :: l', S n' => x :: set_nth n' v l'
  end.

(** [g[r, c] = v] *)
Definition set_cell {A} (g : grid A) (r c : nat) (v : A) : grid A :=
  set_nth r (set_nth c v (nth r g [])) g.

(** [range(a, b)] *)
Definition range (a b : nat) : list nat := seq a (b - a).

Definition fsum (l : list fval) : fval := fold_left fadd l (Fin 0).

(** [np.mean] of a list *)
Definition fmean (l : list fval) : fval :=
  lift1 (fun s => s / INR (List.length l)) (fsum l).

(** The body of the inner loop: the value stored at [tri[i, j]]. *)
Definition tri_value (dtm : grid fval) (i j : nat) : fval :=
  let center := cell NaN dtm i j in
  let neighbors :=
    [ cell NaN dtm (i - 1) (j - 1); cell NaN dtm (i - 1) j;
      cell NaN dtm (i - 1) (j + 1);
      cell NaN dtm i (j - 1);       cell NaN dtm i (j + 1);
      cell NaN dtm (i + 1) (j - 1); cell NaN dtm (i + 1) j;
      cell NaN dtm (i + 1) (j + 1) ]%nat in
  let diffs := map (fun n => fsqr (fsub center n)) neighbors in
  fsqrt (fmean diffs).

Definition compute_tri (dtm : grid fval) : grid fval :=
  let tri := tabulate (nrows dtm) (ncols dtm) (fun _ _ => Fin 0) in
  fold_left
    (fun tri i =>
       fold_left
         (fun tri j => set_cell tri i j (tri_value dtm i j))
         (range 1 (ncols dtm - 1)) tri)
    (range 1 (nrows dtm - 1)) tri.

(** ** The log lines of compute_slope and compute_tri *)

(** The reductions of a log line ([np.nanmin], [np.min] and the like)
    raise ValueError on a zero-size array; on any other array they only
    feed the message. *)
Definition log_statistics (reduction : string) (a : grid fval) : result unit :=
  if ((nrows a =? 0) || (ncols a =? 0))%nat
  then ValueError ("zero-size array to reduction operation " ++ reduction
                   ++ " which has no identity")%string
  else Ok tt.

(** The call of [compute_slope], the log line before its [return]
    included: [compute_slope] above is the array it computes. *)
Definition compute_slope_call (dtm : grid fval) (cellsize : R)
  (algorithm : string) : result (grid fval) :=
  slope_deg <- compute_slope dtm cellsize algorithm ;;
  logged <- log_statistics "fmin" slope_deg ;;
  Ok slope_deg.

(** The call of [compute_tri], the log line before its [return]
    included: [compute_tri] above is the array it computes. *)
Definition compute_tri_call (dtm : grid fval) : result (grid fval) :=
  let tri := compute_tri dtm in
  logged <- log_statistics "minimum" tri ;;
  Ok tri.

(** ** colorize_slope and colorize_aspect *)

Definition color : Type := (Z * Z * Z)%type.

Definition channel (c : color) (b : nat) : Z :=
  match c, b with
  | (r, _, _), 0%nat => r
  | (_, g, _), 1%nat => g
  | (_, _, bl), _ => bl
  end.

(** A (3, h, w) array of uint8: the list of its three bands. *)
Definition rgb_array : Type := list (grid Z).

Definition zeros3 (h w : nat) : rgb_array :=
  let z := tabulate h w (fun _ _ => 0%Z) in [z; z; z].

(** [rgb[b, mask] = v] *)
Definition assign_masked (rgb : rgb_array) (b : nat) (mask : grid bool) (v : Z)
  : rgb_array :=
  set_nth b (map2_grid (fun (m : bool) old => if m then v else old)
               mask (nth b rgb [])) rgb.

(** The three assignments of one colour under one mask. *)
Definition paint (rgb : rgb_array) (mask : grid bool) (c : color) : rgb_array :=
  let rgb := assign_masked rgb 0 mask (channel c 0) in
  let rgb := assign_masked rgb 1 mask (channel c 1) in
  assign_masked rgb 2 mask (channel c 2).

(** [(a >= lower) & (a < upper)] *)
Definition between (lower upper : R) (a : fval) : bool :=
  fge a lower && flt a upper.

Definition enumerate {A} (l : list A) : list (nat * A) :=
  combine (seq 0 (List.length l)) l.

(** [zip(bins[:-1], bins[1:])] *)
Definition bin_pairs (bins : list R) : list (R * R) :=
  combine (removelast bins) (tl bins).

Definition slope_scheme (algorithm : string)
  : result (list R * list color) :=
  if String.eqb algorithm "skitour"%string then
    Ok ([0; 20; 45; 90],
        [(0, 200, 0); (255, 255, 0); (255, 0, 0)]%Z)
  else if String.eqb algorithm "climbing"%string then
    Ok ([0; 20; 35; 50; 90],
        [(0, 0, 255); (0, 255, 0); (255, 255, 0); (255, 0, 0)]%Z)
  else ValueError ("Unknown algorithm: " ++ algorithm)%string.

Definition colorize_slope (slope_array : grid fval) (algorithm : string)
  : result rgb_array :=
  scheme <- slope_scheme algorithm ;;
  let '(bins, colors) := scheme in
  let rgb := zeros3 (nrows slope_array) (ncols slope_array) in
  Ok (fold_left
        (fun rgb '(i, (lower, upper)) =>
           let mask := map_grid (between lower upper) slope_array in
           paint rgb mask (nth i colors (0, 0, 0)%Z))
        (enumerate (bin_pairs bins)) rgb).

Definition directions : list (R * R * color) :=
  [ (0, 22.5, (255, 0, 0)%Z);
    (22.5, 67.5, (255, 255, 0)%Z);
    (67.5, 112.5, (0, 255, 0)%Z);
    (112.5, 157.5, (0, 255, 255)%Z);
    (157.5, 202.5, (0, 0, 255)%Z);
    (202.5, 247.5, (255, 0, 255)%Z);
    (247.5, 292.5, (255, 255, 255)%Z);
    (292.5, 337.5, (255, 165, 0)%Z);
    (337.5, 360, (255, 0, 0)%Z) ].

Definition colorize_aspect (aspect_array : grid fval) : rgb_array :=
  let rgb := zeros3 (nrows aspect_array) (ncols aspect_array) in
  let rgb :=
    fold_left
      (fun rgb '(lower, upper, c) =>
         let mask := map_grid (between lower upper) aspect_array in
         paint rgb mask c)
      directions rgb in
  let flat_mask := map_grid (fun a => feq a (-1)) aspect_array in
  paint rgb flat_mask (128, 128, 128)%Z.

(** ** main *)

Record arguments : Type := {
  slope_algorithm : string;
  colorize_slope_scheme : string;
  skip_aspect : bool;
  skip_tri : bool
}.

(** What [save_raster] writes: a single band with its nodata value, or
    three uint8 bands without one. *)
Inductive raster : Type :=
| Band (data : grid fval) (nodata : R)
| Bands (data : rgb_array).

(** The output directory: the files written, in the order of writing. *)
Definition files : Type := list (string * raster).

Definition save_raster (out : files) (content : raster) (name : string)
  : files :=
  out ++ [(name, content)].

Inductive outcome : Type :=
| Done
| SystemExit (code : Z)
| Raised (msg : string).

(** [choices=[...]] of argparse *)
Definition choice_ok (choices : list string) (s : string) : bool :=
  existsb (String.eqb s) choices.

(** [main]: the argument check, the existence check on the input file
    ([None] when the file is missing) and the products in the order the
    code writes them. *)
Definition main (a : arguments) (dtm_file : option (grid fval))
  : files * outcome :=
  if negb (choice_ok ["zevenbergen_thorne"; "horn"]%string (slope_algorithm a)
           && choice_ok ["skitour"; "climbing"]%string
                (colorize_slope_scheme a))
  then ([], SystemExit 2)
  else
    match dtm_file with
    | None => ([], SystemExit 1)
    | Some dtm =>
        match compute_slope dtm 1 (slope_algorithm a) with
        | ValueError msg => ([], Raised msg)
        | Ok slope =>
            let out := save_raster [] (Band slope (-9999))
                         "slope_degrees.tif" in
            let out :=
              if negb (skip_aspect a) then
                let aspect := compute_aspect dtm 1 in
                let out := save_raster out (Band aspect (-1))
                             "aspect_degrees.tif" in
                save_raster out (Bands (colorize_aspect aspect))
                  "aspect_colorized.tif"
              else out in
            match colorize_slope slope (colorize_slope_scheme a) with
            | ValueError msg => (out, Raised msg)
            | Ok slope_rgb =>
                let out := save_raster out (Bands slope_rgb)
                             "slope_colorized.tif" in
                let out :=
                  if negb (skip_tri a) then
                    save_raster out (Band (compute_tri dtm) (-9999))
                      "tri.tif"
                  else out in
                (out, Done)
            end
        end
    end.

(** The file of a given name, as last written. *)
Definition read_file (out : files) (name : string) : option raster :=
  match find (fun f => String.eqb (fst f) name) (rev out) with
  | Some f => Some (snd f)
  | None => None
  end.

(** * Auxiliary definitions *)

(** The weight a filter position contributes with: the weight itself
    inside the footprint, nothing outside. *)
Definition effective (w : R) : R := if in_footprint w then w else 0.

(** The neighbour read at filter position [(i, j)]. *)
Definition neighbor (g : grid fval) (cval : fval) (r c i j : nat) : fval :=
  padded g cval (Z.of_nat r + Z.of_nat i - 1) (Z.of_nat c + Z.of_nat j - 1).

Definition tap_weight (k : kernel) (t : nat * nat) : R :=
  weight k (fst t) (snd t).

Definition tap_value (g : grid fval) (k : kernel) (cval : fval) (r c : nat)
  (t : nat * nat) : fval :=
  fmul (Fin (tap_weight k t)) (neighbor g cval r c (fst t) (snd t)).

(** The example of the library's documentation for [convolve]:
    with [cval=0.0] the array [a] and the weights [k] give 11, 10 and 3 at
    the cells (0, 0), (0, 1) and (1, 1). *)
Definition doc_array : grid fval :=
  [ [Fin 1; Fin 2; Fin 0; Fin 0]; [Fin 5; Fin 3; Fin 0; Fin 4];
    [Fin 0; Fin 0; Fin 0; Fin 7]; [Fin 9; Fin 3; Fin 0; Fin 0] ].

Definition doc_weights : kernel := [[1; 1; 1]; [1; 1; 0]; [1; 0; 0]].

(** The gradient value the convolution with kernel [k] leaves at a cell. *)
Definition grad (dtm : grid fval) (k : kernel) (r c : nat) : fval :=
  correlate_point dtm (flip k) NaN r c.

(** [1 <= r <= H-2] and [1 <= c <= W-2]. *)
Definition interior {A} (g : grid A) (r c : nat) : Prop :=
  (1 <= r /\ r + 2 <= nrows g /\ 1 <= c /\ c + 2 <= ncols g)%nat.

(** A cell of the outermost ring. *)
Definition on_border {A} (g : grid A) (r c : nat) : Prop :=
  (r < nrows g /\ c < ncols g /\
   (r = 0 \/ r + 1 = nrows g \/ c = 0 \/ c + 1 = ncols g))%nat.

(** The 3x3 window of an interior cell as a function of the position. *)
Definition window_of (g : grid fval) (r c : nat) (z : nat -> nat -> R) : Prop :=
  forall i j, (i < 3)%nat -> (j < 3)%nat ->
              cell NaN g (r + i - 1) (c + j - 1) = Fin (z i j).

(** On the border ring a corner of the window lies outside the array, and
    every corner weight of the four kernels is in the footprint. *)
Definition corner_kernel (k : kernel) : Prop :=
  forall i j, (i = 0 \/ i = 2)%nat -> (j = 0 \/ j = 2)%nat ->
              in_footprint (weight (flip k) i j) = true.

(** The neighbour offsets [(dr, dc)] of a cell. *)
Definition offsets : list (Z * Z) :=
  [(-1, -1); (-1, 0); (-1, 1); (0, -1); (0, 0); (0, 1);
   (1, -1); (1, 0); (1, 1)]%Z.

(** [kernel[i][j]] *)
Definition kernel_at (k : kernel) (i j : Z) : R :=
  weight k (Z.to_nat i) (Z.to_nat j).

(** The sum in the words of the specification:
    [input[r+dr][c+dc] * kernel[dr+1][dc+1]] over the nine offsets, with
    [NaN] for a neighbour outside the array. *)
Definition neighborhood_sum_spec (g : grid fval) (k : kernel) (r c : nat)
  : fval :=
  fsum (map (fun '(dr, dc) =>
               fmul (padded g NaN (Z.of_nat r + dr) (Z.of_nat c + dc))
                    (Fin (kernel_at k (dr + 1) (dc + 1))))
          offsets).

(** The sum the code computes: the kernel is mirrored in both axes, and
    only the offsets whose weight is in the filter footprint take part. *)
Definition mirrored_sum (g : grid fval) (k : kernel) (r c : nat) : fval :=
  fsum (map (fun '(dr, dc) =>
               fmul (padded g NaN (Z.of_nat r + dr) (Z.of_nat c + dc))
                    (Fin (kernel_at k (1 - dr) (1 - dc))))
          (filter (fun '(dr, dc) => in_footprint (kernel_at k (1 - dr) (1 - dc)))
             offsets)).

Definition tap_offset (t : nat * nat) : Z * Z :=
  (Z.of_nat (fst t) - 1, Z.of_nat (snd t) - 1)%Z.

(** The plane rising by one per column, on a 3x3 array. *)
Definition ramp_east : grid fval :=
  [ [Fin 0; Fin 1; Fin 2]; [Fin 0; Fin 1; Fin 2]; [Fin 0; Fin 1; Fin 2] ].

(** All cells equal to the real number [v]. *)
Definition flat_grid (v : R) (g : grid fval) : Prop :=
  forall r c, (r < nrows g)%nat -> (c < ncols g)%nat ->
              cell NaN g r c = Fin v.

Definition flat3 : grid fval :=
  [ [Fin 5; Fin 5; Fin 5]; [Fin 5; Fin 5; Fin 5]; [Fin 5; Fin 5; Fin 5] ].

(** Unit planes on a 3x3 array, row 0 the northern edge and column 0 the
    western edge: [ramp_south] rises by one per row (the ground falls
    toward north), [ramp_north] falls by one per row, [ramp_east] rises by
    one per column, [ramp_west] falls by one per column. *)
Definition ramp_south : grid fval :=
  [ [Fin 0; Fin 0; Fin 0]; [Fin 1; Fin 1; Fin 1]; [Fin 2; Fin 2; Fin 2] ].

Definition ramp_north : grid fval :=
  [ [Fin 2; Fin 2; Fin 2]; [Fin 1; Fin 1; Fin 1]; [Fin 0; Fin 0; Fin 0] ].

Definition ramp_west : grid fval :=
  [ [Fin 2; Fin 1; Fin 0]; [Fin 2; Fin 1; Fin 0]; [Fin 2; Fin 1; Fin 0] ].

Definition rising (i : nat) : R :=
  match i with 0%nat => 0 | 1%nat => 1 | _ => 2 end.

Definition falling (i : nat) : R :=
  match i with 0%nat => 2 | 1%nat => 1 | _ => 0 end.

(** The nested loops of [compute_tri]: for [i] in [rows], for [j] in
    [cols], [t[i, j] = f i j]. *)
Definition fill_row {A} (f : nat -> nat -> A) (i : nat) (cols : list nat)
  (t : grid A) : grid A :=
  fold_left (fun t j => set_cell t i j (f i j)) cols t.

Definition fill {A} (f : nat -> nat -> A) (rows cols : list nat) (t : grid A)
  : grid A :=
  fold_left (fun t i => fill_row f i cols t) rows t.

Definition mem (n : nat) (l : list nat) : bool := existsb (Nat.eqb n) l.

(** The offsets of the 8-connected neighbours. *)
Definition neighbors8 : list (Z * Z) :=
  [(-1, -1); (-1, 0); (-1, 1); (0, -1); (0, 1); (1, -1); (1, 0); (1, 1)]%Z.

(** The statistic in the words of the specification: the square root of
    the mean of [(center - neighbor)^2] over the eight neighbours. *)
Definition ruggedness_spec (g : grid fval) (r c : nat) : fval :=
  let center := cell NaN g r c in
  fsqrt
    (fmean
       (map (fun '(dr, dc) =>
               fsqr (fsub center
                       (cell NaN g (Z.to_nat (Z.of_nat r + dr))
                                   (Z.to_nat (Z.of_nat c + dc)))))
          neighbors8)).

Definition two_rows : grid fval :=
  [ [Fin 3; Fin 1; Fin 4; Fin 1]; [Fin 5; Fin 9; Fin 2; Fin 6] ].

(** The colour of one pixel: the three bands at one position. *)
Definition pixel (rgb : rgb_array) (r c : nat) : color :=
  (cell 0%Z (nth 0 rgb []) r c,
   cell 0%Z (nth 1 rgb []) r c,
   cell 0%Z (nth 2 rgb []) r c).

(** Three bands of one shape. *)
Definition rgb_shape (h w : nat) (rgb : rgb_array) : Prop :=
  List.length rgb = 3%nat /\ Forall (rect h w) rgb.

(** The shape of an array derived from [src]: as many rows, and every row
    as long as the rows of [src]. *)
Definition same_shape {A B} (src : grid A) (out : grid B) : Prop :=
  rect (nrows src) (ncols src) out.

(** Painting one mask after the other. *)
Definition paint_layers (rgb : rgb_array) (layers : list (grid bool * color))
  : rgb_array :=
  fold_left (fun rgb l => paint rgb (fst l) (snd l)) layers rgb.

Definition green : color := (0, 200, 0)%Z.

Definition yellow : color := (255, 255, 0)%Z.

Definition red : color := (255, 0, 0)%Z.

Definition bin_mask (lower upper : R) (a : grid fval) : grid bool :=
  map_grid (between lower upper) a.

(** The mask and the colour of one compass sector. *)
Definition sector_layer (aspect_array : grid fval) (d : R * R * color)
  : grid bool * color :=
  (bin_mask (fst (fst d)) (snd (fst d)) aspect_array, snd d).

(** The colour the [skitour] scheme gives a slope value: the bins are
    [lower <= v < upper]. *)
Definition skitour_color (v : fval) : color :=
  if between 45 90 v then red
  else if between 20 45 v then yellow
  else if between 0 20 v then green
  else (0, 0, 0)%Z.

Definition slopes_2x2 : grid fval :=
  [ [Fin 19.5; Fin 20]; [Fin 45; Fin 0] ].

Definition with_algorithm (algorithm scheme : string) (no_aspect no_tri : bool)
  : arguments :=
  {| slope_algorithm := algorithm;
     colorize_slope_scheme := scheme;
     skip_aspect := no_aspect;
     skip_tri := no_tri |}.

(** The real number a cell holds, 0 for [NaN]. *)
Definition real_of (a : fval) : R :=
  match a with
  | Fin x => x
  | NaN => 0
  end.

(** No cell of the array is [NaN]. *)
Definition finite_grid (g : grid fval) : Prop :=
  forall r c, (r < nrows g)%nat -> (c < ncols g)%nat -> cell NaN g r c <> NaN.

(** The window of a cell read as real numbers. *)
Definition real_window (g : grid fval) (r c i j : nat) : R :=
  real_of (cell NaN g (r + i - 1) (c + j - 1)).

Definition black : color := (0, 0, 0)%Z.
Definition gray : color := (128, 128, 128)%Z.
Definition blue : color := (0, 0, 255)%Z.
Definition lime : color := (0, 255, 0)%Z.

(** The colour the [climbing] scheme gives a slope value. *)
Definition climbing_color (v : fval) : color :=
  if between 50 90 v then red
  else if between 35 50 v then yellow
  else if between 20 35 v then lime
  else if between 0 20 v then blue
  else black.

(** The colour [colorize_aspect] gives an aspect value: the flat rule is
    applied last, after the nine sector masks in their order. *)
Definition aspect_color (v : fval) : color :=
  if feq v (-1) then gray
  else if between 337.5 360 v then (255, 0, 0)%Z
  else if between 292.5 337.5 v then (255, 165, 0)%Z
  else if between 247.5 292.5 v then (255, 255, 255)%Z
  else if between 202.5 247.5 v then (255, 0, 255)%Z
  else if between 157.5 202.5 v then (0, 0, 255)%Z
  else if between 112.5 157.5 v then (0, 255, 255)%Z
  else if between 67.5 112.5 v then (0, 255, 0)%Z
  else if between 22.5 67.5 v then (255, 255, 0)%Z
  else if between 0 22.5 v then (255, 0, 0)%Z
  else black.

(** A colour whose three channels fit in a byte. *)
Definition byte_color (c : color) : Prop :=
  let '(r, g, b) := c in
  (0 <= r <= 255 /\ 0 <= g <= 255 /\ 0 <= b <= 255)%Z.

(** Both names pass the [choices] of the argument parser. *)
Definition valid_names (a : arguments) : bool :=
  choice_ok ["zevenbergen_thorne"; "horn"]%string (slope_algorithm a)
  && choice_ok ["skitour"; "climbing"]%string (colorize_slope_scheme a).

Definition aspects_2x2 : grid fval :=
  [ [Fin (-1); Fin 0]; [Fin 337.5; NaN] ].

(** An elevation on which the float64 sums of the gradients are exact:
    a binary fraction [z / 2^k] of at most 50 bits. *)
Definition exact_elevation (v : R) : Prop :=
  exists (z : Z) (k : nat),
    v = IZR z / 2 ^ k /\ (Z.abs z <= 2 ^ 50)%Z /\ (k <= 64)%nat.

(** Every cell is a real number of magnitude at most [bound]. *)
Definition bounded_grid (bound : R) (g : grid fval) : Prop :=
  forall r c, (r < nrows g)%nat -> (c < ncols g)%nat ->
              exists x, cell NaN g r c = Fin x /\ Rabs x <= bound.

(** Arguments with an algorithm name that is not among the choices. *)
Definition invalid_arguments : arguments :=
  with_algorithm "sobel" "skitour" false false.

(** * Properties *)

(** ** Lists and arrays *)

Section ZipWith.
Context {A B C : Type}.

Lemma zip_with_length (f : A -> B -> C) xs ys :
  List.length xs = List.length ys ->
  List.length (zip_with f xs ys) = List.length xs.
Proof.
  revert ys; induction xs as [|x xs IH]; intros [|y ys] E; simpl in *;
    try discriminate; auto.
Qed.

Lemma nth_zip_with (f : A -> B -> C) xs ys n dc da db :
  (n < List.length xs)%nat -> (n < List.length ys)%nat ->
  nth n (zip_with f xs ys) dc = f (nth n xs da) (nth n ys db).
Proof.
  revert ys n; induction xs as [|x xs IH]; intros [|y ys] [|n] Hx Hy;
    simpl in *; try lia; auto.
  apply IH; lia.
Qed.

End ZipWith.

Lemma rect_row {A} h w (g : grid A) r :
  rect h w g -> (r < h)%nat -> List.length (nth r g []) = w.
Proof.
  intros [Hl Hf] Hr; rewrite Forall_forall in Hf.
  apply Hf, nth_In; lia.
Qed.

Section Arrays.
Context {A B C : Type}.

Lemma rect_tabulate h w (f : nat -> nat -> A) : rect h w (tabulate h w f).
Proof.
  unfold rect, tabulate; split.
  - now rewrite length_map, length_seq.
  - apply Forall_forall; intros row Hin.
    apply in_map_iff in Hin as [r [<- _]].
    now rewrite length_map, length_seq.
Qed.

Lemma cell_tabulate h w (f : nat -> nat -> A) d r c :
  (r < h)%nat -> (c < w)%nat -> cell d (tabulate h w f) r c = f r c.
Proof.
  intros Hr Hc; unfold cell, tabulate.
  rewrite (nth_indep _ [] (map (fun c => f 0%nat c) (seq 0 w)))
    by now rewrite length_map, length_seq.
  rewrite (map_nth (fun r => map (fun c => f r c) (seq 0 w)) (seq 0 h) 0%nat).
  rewrite seq_nth by assumption; simpl.
  rewrite (nth_indep _ d (f r 0%nat)) by now rewrite length_map, length_seq.
  rewrite (map_nth (fun c => f r c) (seq 0 w) 0%nat).
  now rewrite seq_nth.
Qed.

Lemma rect_map2 h w (f : A -> B -> C) g1 g2 :
  rect h w g1 -> rect h w g2 -> rect h w (map2_grid f g1 g2).
Proof.
  unfold rect, map2_grid; intros [L1 F1] [L2 F2]; subst h.
  revert g2 L2 F2; induction F1 as [|row1 g1 Hrow1 F1 IH];
    intros [|row2 g2] L2 F2; simpl in *; try discriminate; auto.
  inversion F2 as [|? ? Hrow2 F2']; subst.
  destruct (IH g2) as [IHl IHf]; auto.
  split; [now rewrite IHl|].
  constructor; [|assumption].
  rewrite zip_with_length; congruence.
Qed.

Lemma cell_map2 h w (f : A -> B -> C) g1 g2 dc da db r c :
  rect h w g1 -> rect h w g2 -> (r < h)%nat -> (c < w)%nat ->
  cell dc (map2_grid f g1 g2) r c = f (cell da g1 r c) (cell db g2 r c).
Proof.
  intros R1 R2 Hr Hc; unfold cell, map2_grid.
  pose proof (rect_row h w g1 r R1 Hr) as W1.
  pose proof (rect_row h w g2 r R2 Hr) as W2.
  destruct R1 as [L1 _], R2 as [L2 _].
  rewrite (nth_zip_with (zip_with f) g1 g2 r [] [] []) by lia.
  apply nth_zip_with; lia.
Qed.

Lemma rect_map_grid h w (f : A -> B) g :
  rect h w g -> rect h w (map_grid f g).
Proof.
  unfold rect, map_grid; intros [L F]; split.
  - now rewrite length_map.
  - apply Forall_forall; intros row Hin.
    apply in_map_iff in Hin as [row0 [<- Hin0]].
    rewrite length_map. rewrite Forall_forall in F; auto.
Qed.

Lemma cell_map_grid h w (f : A -> B) g db da r c :
  rect h w g -> (r < h)%nat -> (c < w)%nat ->
  cell db (map_grid f g) r c = f (cell da g r c).
Proof.
  intros Rg Hr Hc; unfold cell, map_grid.
  pose proof (rect_row h w g r Rg Hr) as Wr.
  destruct Rg as [L _].
  rewrite (nth_indep _ [] (map f [])) by (rewrite length_map; lia).
  rewrite (map_nth (map f) g []).
  rewrite (nth_indep _ db (f da)) by (rewrite length_map; lia).
  apply map_nth.
Qed.
End Arrays.

Lemma same_shape_dims {A B} (src : grid A) (out : grid B) :
  same_shape src out -> nrows out = nrows src /\ ncols out = ncols src.
Proof.
  unfold same_shape, rect, nrows, ncols; intros [L F]; split; auto.
  destruct out as [|row out]; simpl in *.
  - destruct src; simpl in *; [reflexivity | discriminate].
  - now inversion F.
Qed.

Lemma rect_dims {A} (g : grid A) h w :
  rect h w g -> rect (nrows g) (ncols g) g.
Proof.
  unfold rect, nrows, ncols; intros [L F]; split; auto.
  destruct g as [|row g]; simpl; [constructor|].
  inversion F as [|? ? Hrow F']; subst.
  constructor; auto.
Qed.

(** ** Cell arithmetic *)

Lemma fmul_comm a b : fmul a b = fmul b a.
Proof. destruct a, b; simpl; auto. now rewrite Rmult_comm. Qed.

Lemma fadd_zero_r a : fadd a (Fin 0) = a.
Proof. destruct a; simpl; auto. now rewrite Rplus_0_r. Qed.

Lemma fsum_fin_acc (xs : list R) (a : R) :
  fold_left fadd (map Fin xs) (Fin a) = Fin (fold_left Rplus xs a).
Proof. revert a; induction xs as [|x xs IH]; intros a; simpl; auto. Qed.

Lemma fold_fadd_nan (l : list fval) : fold_left fadd l NaN = NaN.
Proof. induction l; simpl; auto. Qed.

(** A sum with a [NaN] term is [NaN]. *)
Lemma fold_fadd_in_nan (l : list fval) (a : fval) :
  In NaN l -> fold_left fadd l a = NaN.
Proof.
  revert a; induction l as [|x l IH]; intros a []; simpl.
  - subst x. destruct a; simpl; apply fold_fadd_nan.
  - now apply IH.
Qed.

(** ** The filter footprint *)

Lemma DBL_EPSILON_pos : 0 < DBL_EPSILON.
Proof. unfold DBL_EPSILON; apply Rinv_0_lt_compat, pow_lt; lra. Qed.

Lemma in_footprint_zero : in_footprint 0 = false.
Proof.
  unfold in_footprint; destruct (Rlt_dec _ _) as [H|H]; auto.
  rewrite Rabs_R0 in H; pose proof DBL_EPSILON_pos; lra.
Qed.

Lemma in_footprint_opp w : in_footprint (- w) = in_footprint w.
Proof. unfold in_footprint; now rewrite Rabs_Ropp. Qed.

Lemma in_footprint_above w :
  DBL_EPSILON < Rabs w -> in_footprint w = true.
Proof. unfold in_footprint; intros H; now destruct (Rlt_dec _ _). Qed.

Lemma effective_zero : effective 0 = 0.
Proof. unfold effective; now destruct (in_footprint 0). Qed.

Lemma effective_opp w : effective (- w) = - effective w.
Proof.
  unfold effective; rewrite in_footprint_opp.
  destruct (in_footprint w); lra.
Qed.

Lemma effective_above w : DBL_EPSILON < Rabs w -> effective w = w.
Proof. intros H; unfold effective; now rewrite in_footprint_above. Qed.

(** ** One output cell of the convolution *)

Lemma neighbor_inside g cval r c i j :
  (1 <= r + i)%nat -> (r + i - 1 < nrows g)%nat ->
  (1 <= c + j)%nat -> (c + j - 1 < ncols g)%nat ->
  neighbor g cval r c i j = cell NaN g (r + i - 1) (c + j - 1).
Proof.
  intros; unfold neighbor, padded.
  replace (Z.of_nat r + Z.of_nat i - 1)%Z with (Z.of_nat (r + i - 1)) by lia.
  replace (Z.of_nat c + Z.of_nat j - 1)%Z with (Z.of_nat (c + j - 1)) by lia.
  rewrite !Nat2Z.id.
  replace (_ && _ && _ && _)%bool with true; auto.
  symmetry; rewrite !andb_true_iff.
  repeat split; try apply Z.leb_le; try apply Z.ltb_lt; lia.
Qed.

Lemma neighbor_outside g cval r c i j :
  (r + i < 1 \/ nrows g <= r + i - 1 \/
   c + j < 1 \/ ncols g <= c + j - 1)%nat ->
  neighbor g cval r c i j = cval.
Proof.
  intros H; unfold neighbor, padded.
  replace (_ && _ && _ && _)%bool with false; auto.
  symmetry; rewrite !andb_false_iff.
  rewrite !Z.leb_gt, !Z.ltb_ge. lia.
Qed.

Section FootprintSums.
Context {T : Type} (P : T -> bool) (V : T -> fval).

Lemma fold_skip_filter (l : list T) (acc : fval) :
  fold_left (fun res t => if P t then fadd res (V t) else res) l acc
  = fold_left fadd (map V (filter P l)) acc.
Proof.
  revert acc; induction l as [|t l IH]; intros acc; simpl; auto.
  destruct (P t); simpl; apply IH.
Qed.

Lemma fold_skip_contrib (l : list T) (acc : fval) :
  fold_left (fun res t => if P t then fadd res (V t) else res) l acc
  = fold_left fadd (map (fun t => if P t then V t else Fin 0) l) acc.
Proof.
  revert acc; induction l as [|t l IH]; intros acc; simpl; auto.
  destruct (P t); simpl; rewrite ?fadd_zero_r; apply IH.
Qed.
End FootprintSums.

Lemma correlate_point_fold g k cval r c :
  correlate_point g k cval r c
  = fold_left
      (fun res t =>
         if in_footprint (tap_weight k t)
         then fadd res (tap_value g k cval r c t) else res)
      taps (Fin 0).
Proof. reflexivity. Qed.

Lemma correlate_point_filter g k cval r c :
  correlate_point g k cval r c
  = fsum (map (tap_value g k cval r c)
            (filter (fun t => in_footprint (tap_weight k t)) taps)).
Proof.
  rewrite correlate_point_fold.
  apply (fold_skip_filter (fun t => in_footprint (tap_weight k t))).
Qed.

(** With real-valued neighbours on the footprint the cell is the sum of
    the products with the effective weights. *)
Lemma correlate_point_real g k cval r c (z : nat -> nat -> R) :
  (forall t, In t taps -> in_footprint (tap_weight k t) = true ->
             neighbor g cval r c (fst t) (snd t) = Fin (z (fst t) (snd t))) ->
  correlate_point g k cval r c
  = Fin (fold_left Rplus
           (map (fun t => effective (tap_weight k t) * z (fst t) (snd t)) taps)
           0).
Proof.
  intros Hz. rewrite correlate_point_fold.
  rewrite (fold_skip_contrib (fun t => in_footprint (tap_weight k t))).
  rewrite <- fsum_fin_acc, map_map.
  f_equal. apply map_ext_in; intros t Ht.
  unfold effective, tap_value.
  destruct (in_footprint (tap_weight k t)) eqn:E.
  - rewrite (Hz t Ht E); reflexivity.
  - simpl; f_equal; lra.
Qed.

(** A [NaN] neighbour on the footprint makes the cell [NaN]. *)
Lemma correlate_point_nan g k cval r c t :
  In t taps -> in_footprint (tap_weight k t) = true ->
  neighbor g cval r c (fst t) (snd t) = NaN ->
  correlate_point g k cval r c = NaN.
Proof.
  intros Ht Hf Hn. rewrite correlate_point_filter.
  apply fold_fadd_in_nan.
  apply in_map_iff; exists t; split.
  - unfold tap_value; rewrite Hn; reflexivity.
  - apply filter_In; auto.
Qed.

Lemma rect_convolve g k cval :
  rect (nrows g) (ncols g) (convolve g k cval).
Proof. apply rect_tabulate. Qed.

Lemma cell_convolve g k cval r c :
  (r < nrows g)%nat -> (c < ncols g)%nat ->
  cell NaN (convolve g k cval) r c = correlate_point g (flip k) cval r c.
Proof. intros; unfold convolve, correlate; now apply cell_tabulate. Qed.

Lemma effective_one : effective 1 = 1.
Proof.
  apply effective_above. rewrite Rabs_R1. unfold DBL_EPSILON.
  assert (H : 1 < 2 ^ 52) by (apply Rlt_pow_R1; [lra | lia]).
  apply (Rmult_lt_reg_r (2 ^ 52)); [lra|].
  rewrite Rinv_l by lra. lra.
Qed.

Ltac doc_window :=
  let t := fresh "t" in let Ht := fresh "Ht" in
  intros t Ht _; unfold taps in Ht; simpl in Ht;
  repeat (destruct Ht as [<-|Ht]; [reflexivity|]); contradiction.

Ltac doc_sum :=
  cbn [taps map fold_left tap_weight fst snd weight flip rev app nth
       doc_weights];
  rewrite ?effective_one, ?effective_zero.

(** The model of [convolve] reproduces the documented values of the
    library, which fixes the orientation of the mirrored weights. *)
Example convolve_documented :
  cell NaN (convolve doc_array doc_weights (Fin 0)) 0 0 = Fin 11
  /\ cell NaN (convolve doc_array doc_weights (Fin 0)) 0 1 = Fin 10
  /\ cell NaN (convolve doc_array doc_weights (Fin 0)) 1 1 = Fin 3.
Proof.
  repeat split; rewrite cell_convolve by (vm_compute; lia).
  - rewrite (correlate_point_real _ _ _ _ _
               (fun i j => match i, j with
                           | 1%nat, 1%nat => 1 | 1%nat, 2%nat => 2 | 2%nat, 1%nat => 5 | 2%nat, 2%nat => 3
                           | _, _ => 0
                           end)) by doc_window.
    doc_sum. f_equal; lra.
  - rewrite (correlate_point_real _ _ _ _ _
               (fun i j => match i, j with
                           | 1%nat, 0%nat => 1 | 1%nat, 1%nat => 2 | 2%nat, 0%nat => 5 | 2%nat, 1%nat => 3
                           | _, _ => 0
                           end)) by doc_window.
    doc_sum. f_equal; lra.
  - rewrite (correlate_point_real _ _ _ _ _
               (fun i j => match i, j with
                           | 0%nat, 0%nat => 1 | 0%nat, 1%nat => 2 | 1%nat, 0%nat => 5 | 1%nat, 1%nat => 3
                           | 2%nat, 2%nat => 0 | _, _ => 0
                           end)) by doc_window.
    doc_sum. f_equal; lra.
Qed.

(** ** Gradients, slope and aspect cell by cell *)

Lemma slope_kernels_cases cellsize algorithm kx ky :
  slope_kernels cellsize algorithm = Ok (kx, ky) ->
  (algorithm = "zevenbergen_thorne"%string /\
   kx = zt_kernel_x cellsize /\ ky = zt_kernel_y cellsize)
  \/ (algorithm = "horn"%string /\
      kx = horn_kernel_x cellsize /\ ky = horn_kernel_y cellsize).
Proof.
  unfold slope_kernels.
  destruct (String.eqb_spec algorithm "zevenbergen_thorne") as [E|_].
  - intros H; inversion H; auto.
  - destruct (String.eqb_spec algorithm "horn") as [E|_].
    + intros H; inversion H; auto.
    + discriminate.
Qed.

Lemma compute_slope_ok dtm cellsize algorithm slope :
  compute_slope dtm cellsize algorithm = Ok slope ->
  exists kx ky,
    slope_kernels cellsize algorithm = Ok (kx, ky) /\
    slope = map2_grid slope_of (convolve dtm kx NaN) (convolve dtm ky NaN).
Proof.
  unfold compute_slope, bind.
  destruct (slope_kernels cellsize algorithm) as [[kx ky]|msg];
    [|discriminate].
  intros H; inversion H; eauto.
Qed.

(** With one of the two algorithm names the slope is computed. *)
Lemma compute_slope_returns dtm cellsize algorithm :
  algorithm = "zevenbergen_thorne"%string \/ algorithm = "horn"%string ->
  exists slope, compute_slope dtm cellsize algorithm = Ok slope.
Proof. intros [-> | ->]; eexists; reflexivity. Qed.

Lemma rect_compute_slope dtm cellsize algorithm slope :
  compute_slope dtm cellsize algorithm = Ok slope ->
  rect (nrows dtm) (ncols dtm) slope.
Proof.
  intros H; apply compute_slope_ok in H as (kx & ky & _ & ->).
  apply rect_map2; apply rect_convolve.
Qed.

Lemma cell_compute_slope dtm cellsize algorithm slope kx ky r c :
  compute_slope dtm cellsize algorithm = Ok slope ->
  slope_kernels cellsize algorithm = Ok (kx, ky) ->
  (r < nrows dtm)%nat -> (c < ncols dtm)%nat ->
  cell NaN slope r c = slope_of (grad dtm kx r c) (grad dtm ky r c).
Proof.
  intros H K Hr Hc.
  apply compute_slope_ok in H as (kx' & ky' & K' & ->).
  rewrite K in K'; inversion K'; subst kx' ky'.
  rewrite (cell_map2 (nrows dtm) (ncols dtm) _ _ _ NaN NaN NaN);
    auto using rect_convolve.
  now rewrite !cell_convolve.
Qed.

Lemma rect_compute_aspect dtm cellsize :
  rect (nrows dtm) (ncols dtm) (compute_aspect dtm cellsize).
Proof.
  unfold compute_aspect; repeat apply rect_map2; apply rect_convolve.
Qed.

Lemma cell_compute_aspect dtm cellsize r c :
  (r < nrows dtm)%nat -> (c < ncols dtm)%nat ->
  cell NaN (compute_aspect dtm cellsize) r c
  = where_flat
      (slope_of (grad dtm (zt_kernel_x cellsize) r c)
                (grad dtm (zt_kernel_y cellsize) r c))
      (aspect_of (grad dtm (zt_kernel_x cellsize) r c)
                 (grad dtm (zt_kernel_y cellsize) r c)).
Proof.
  intros Hr Hc; unfold compute_aspect.
  rewrite (cell_map2 (nrows dtm) (ncols dtm) _ _ _ NaN NaN NaN);
    auto using rect_map2, rect_convolve.
  rewrite !(cell_map2 (nrows dtm) (ncols dtm) _ _ _ NaN NaN NaN);
    auto using rect_convolve.
  now rewrite !cell_convolve.
Qed.

(** ** The four kernels *)

Lemma effective_zero_div d : effective (0 / d) = 0.
Proof. replace (0 / d) with 0 by (unfold Rdiv; ring). apply effective_zero. Qed.

Lemma effective_m1_div d : effective (-1 / d) = - effective (1 / d).
Proof.
  replace (-1 / d) with (- (1 / d)) by (unfold Rdiv; ring).
  apply effective_opp.
Qed.

Lemma effective_m2_div d : effective (-2 / d) = - effective (2 / d).
Proof.
  replace (-2 / d) with (- (2 / d)) by (unfold Rdiv; ring).
  apply effective_opp.
Qed.

Ltac kernel_sum :=
  cbn [taps map fold_left tap_weight fst snd weight flip rev app nth scale
       zt_kernel_x zt_kernel_y horn_kernel_x horn_kernel_y];
  rewrite ?effective_zero_div, ?effective_m1_div, ?effective_m2_div.

(** The gradients on real-valued neighbours [z i j] (row [i], column [j]
    of the 3x3 window, [z 1 1] the cell itself). *)
Section KernelSums.
Variables (dtm : grid fval) (cellsize : R) (r c : nat) (z : nat -> nat -> R).
Hypothesis window :
  forall i j, (i < 3)%nat -> (j < 3)%nat ->
              neighbor dtm NaN r c i j = Fin (z i j).

Lemma window_taps (k : kernel) t :
  In t taps -> in_footprint (tap_weight k t) = true ->
  neighbor dtm NaN r c (fst t) (snd t) = Fin (z (fst t) (snd t)).
Proof.
  intros Ht _; unfold taps in Ht; simpl in Ht.
  repeat (destruct Ht as [<-|Ht]; [apply window; simpl; lia|]).
  contradiction.
Qed.

Lemma grad_zt_x :
  grad dtm (zt_kernel_x cellsize) r c
  = Fin (effective (1 / (8 * cellsize))
           * (z 0 0 - z 0 2 + z 2 0 - z 2 2)
         + effective (2 / (8 * cellsize)) * (z 1 0 - z 1 2)).
Proof.
  unfold grad; rewrite (correlate_point_real _ _ _ _ _ z)
    by apply window_taps.
  kernel_sum. f_equal; ring.
Qed.

Lemma grad_zt_y :
  grad dtm (zt_kernel_y cellsize) r c
  = Fin (effective (1 / (8 * cellsize))
           * (z 0 0 + z 0 2 - z 2 0 - z 2 2)
         + effective (2 / (8 * cellsize)) * (z 0 1 - z 2 1)).
Proof.
  unfold grad; rewrite (correlate_point_real _ _ _ _ _ z)
    by apply window_taps.
  kernel_sum. f_equal; ring.
Qed.

Lemma grad_horn_x :
  grad dtm (horn_kernel_x cellsize) r c
  = Fin (effective (1 / (6 * cellsize))
           * (z 0 0 - z 0 2 + z 1 0 - z 1 2 + z 2 0 - z 2 2)).
Proof.
  unfold grad; rewrite (correlate_point_real _ _ _ _ _ z)
    by apply window_taps.
  kernel_sum. f_equal; ring.
Qed.

Lemma grad_horn_y :
  grad dtm (horn_kernel_y cellsize) r c
  = Fin (effective (1 / (6 * cellsize))
           * (z 0 0 + z 0 1 + z 0 2 - z 2 0 - z 2 1 - z 2 2)).
Proof.
  unfold grad; rewrite (correlate_point_real _ _ _ _ _ z)
    by apply window_taps.
  kernel_sum. f_equal; ring.
Qed.
End KernelSums.

(** ** Interior and border cells *)

Lemma interior_in_range {A} (g : grid A) r c :
  interior g r c -> (r < nrows g /\ c < ncols g)%nat.
Proof. unfold interior; lia. Qed.

Lemma neighbor_interior g cval r c i j :
  interior g r c -> (i < 3)%nat -> (j < 3)%nat ->
  neighbor g cval r c i j = cell NaN g (r + i - 1) (c + j - 1).
Proof.
  unfold interior; intros; apply neighbor_inside; lia.
Qed.

Lemma window_neighbors g r c z :
  interior g r c -> window_of g r c z ->
  forall i j, (i < 3)%nat -> (j < 3)%nat ->
              neighbor g NaN r c i j = Fin (z i j).
Proof.
  intros Hi Hw i j Li Lj. rewrite neighbor_interior; auto.
Qed.

(** The nonzero weights of the four kernels are in the footprint for every
    cell size a raster can have. *)
Lemma footprint_scaled (n d cellsize : R) :
  0 < cellsize < 2 ^ 49 -> 1 <= n -> 0 < d <= 8 ->
  DBL_EPSILON < Rabs (n / (d * cellsize)).
Proof.
  intros [Hc0 Hc1] Hn [Hd0 Hd1].
  assert (Hden : 0 < d * cellsize) by (apply Rmult_lt_0_compat; lra).
  rewrite Rabs_pos_eq
    by (apply Rlt_le, Rdiv_lt_0_compat; lra).
  unfold DBL_EPSILON.
  assert (Hup : d * cellsize < 2 ^ 52).
  { replace (2 ^ 52) with (8 * 2 ^ 49) by (simpl; ring).
    apply Rle_lt_trans with (8 * cellsize).
    - apply Rmult_le_compat_r; lra.
    - lra. }
  apply Rlt_le_trans with (/ (d * cellsize)).
  - apply Rinv_lt_contravar; auto.
    apply Rmult_lt_0_compat; auto. apply pow_lt; lra.
  - unfold Rdiv.
    rewrite <- (Rmult_1_l (/ (d * cellsize))) at 1.
    apply Rmult_le_compat_r; auto.
    apply Rlt_le, Rinv_0_lt_compat; auto.
Qed.

Lemma effective_scaled (n d cellsize : R) :
  0 < cellsize < 2 ^ 49 -> 1 <= n -> 0 < d <= 8 ->
  effective (n / (d * cellsize)) = n / (d * cellsize).
Proof. intros; now apply effective_above, footprint_scaled. Qed.

Lemma grad_border_nan dtm k r c :
  corner_kernel k -> on_border dtm r c -> grad dtm k r c = NaN.
Proof.
  intros Hk (Hr & Hc & Hb); unfold grad.
  assert (Hcorner : exists i j, (i = 0 \/ i = 2)%nat /\ (j = 0 \/ j = 2)%nat /\
                                neighbor dtm NaN r c i j = NaN).
  { destruct Hb as [E|[E|[E|E]]].
    - exists 0%nat, 0%nat; repeat split; auto.
      apply neighbor_outside; lia.
    - exists 2%nat, 0%nat; repeat split; auto.
      apply neighbor_outside; lia.
    - exists 0%nat, 0%nat; repeat split; auto.
      apply neighbor_outside; lia.
    - exists 0%nat, 2%nat; repeat split; auto.
      apply neighbor_outside; lia. }
  destruct Hcorner as (i & j & Hi & Hj & Hn).
  apply (correlate_point_nan _ _ _ _ _ (i, j)); simpl; auto.
  - unfold taps; destruct Hi as [-> | ->], Hj as [-> | ->]; simpl; auto 10.
  - unfold tap_weight; simpl; now apply Hk.
Qed.

Lemma corner_kernels cellsize :
  0 < cellsize < 2 ^ 49 ->
  corner_kernel (zt_kernel_x cellsize) /\ corner_kernel (zt_kernel_y cellsize)
  /\ corner_kernel (horn_kernel_x cellsize)
  /\ corner_kernel (horn_kernel_y cellsize).
Proof.
  intros Hc.
  assert (H8 : in_footprint (1 / (8 * cellsize)) = true)
    by (apply in_footprint_above, footprint_scaled; lra).
  assert (H6 : in_footprint (1 / (6 * cellsize)) = true)
    by (apply in_footprint_above, footprint_scaled; lra).
  assert (M8 : in_footprint (-1 / (8 * cellsize)) = true).
  { replace (-1 / (8 * cellsize)) with (- (1 / (8 * cellsize)))
      by (unfold Rdiv; ring). now rewrite in_footprint_opp. }
  assert (M6 : in_footprint (-1 / (6 * cellsize)) = true).
  { replace (-1 / (6 * cellsize)) with (- (1 / (6 * cellsize)))
      by (unfold Rdiv; ring). now rewrite in_footprint_opp. }
  repeat split; intros i j [-> | ->] [-> | ->]; assumption.
Qed.

(** ** Angles *)

Lemma degrees_PI : degrees PI = 180.
Proof. unfold degrees; field. apply PI_neq0. Qed.

Lemma degrees_scale (q : R) : degrees (q * PI) = q * 180.
Proof. unfold degrees; field. apply PI_neq0. Qed.

Lemma degrees_lt x y : x < y -> degrees x < degrees y.
Proof.
  intros H; unfold degrees. apply Rmult_lt_compat_r; auto.
  apply Rdiv_lt_0_compat; [lra | apply PI_RGT_0].
Qed.

Lemma degrees_le x y : x <= y -> degrees x <= degrees y.
Proof.
  intros [H | ->]; [left; now apply degrees_lt | right; reflexivity].
Qed.

Lemma Ratan2_range y x : - PI < Ratan2 y x <= PI.
Proof.
  pose proof PI_RGT_0 as Hpi.
  pose proof (atan_bound (y / x)) as Hb.
  unfold Ratan2.
  destruct (Rlt_dec 0 x) as [Hx|Hx]; [lra|].
  destruct (Rlt_dec x 0) as [Hx'|Hx'].
  - destruct (Rle_dec 0 y) as [Hy|Hy].
    + assert (atan (y / x) <= 0).
      { rewrite <- atan_0.
        destruct (Req_dec (y / x) 0) as [-> | Hne]; [lra|].
        left; apply atan_increasing.
        assert (y / x <= 0).
        { unfold Rdiv. replace 0 with (y * 0) by ring.
          apply Rmult_le_compat_l; auto.
          left; now apply Rinv_lt_0_compat. }
        lra. }
      lra.
    + assert (0 < atan (y / x)).
      { rewrite <- atan_0. apply atan_increasing.
        unfold Rdiv. replace (y * / x) with ((- y) * (- / x)) by ring.
        apply Rmult_lt_0_compat; [lra|].
        apply Ropp_0_gt_lt_contravar, Rinv_lt_0_compat; auto. }
      lra.
  - destruct (Rlt_dec 0 y); [lra|].
    destruct (Rlt_dec y 0); lra.
Qed.

Lemma Rmod_range x m : 0 < m -> 0 <= Rmod x m < m.
Proof.
  intros Hm; unfold Rmod.
  destruct (base_Int_part (x / m)) as [Hlo Hhi].
  set (q := IZR (Int_part (x / m))) in *.
  assert (Hx : x = x / m * m) by (field; lra).
  split.
  - assert (q * m <= x / m * m) by (apply Rmult_le_compat_r; lra). lra.
  - assert (x / m * m < (q + 1) * m) by (apply Rmult_lt_compat_r; lra). lra.
Qed.

Lemma Rmod_small x m : 0 <= x < m -> Rmod x m = x.
Proof.
  intros [H0 Hm]; unfold Rmod.
  assert (Hpos : 0 < m) by lra.
  replace (Int_part (x / m)) with 0%Z; [simpl; ring|].
  apply Int_part_spec; simpl. split.
  - assert (x / m < 1).
    { apply (Rmult_lt_reg_r m); auto.
      replace (x / m * m) with x by (field; lra). lra. }
    lra.
  - apply Rmult_le_pos; auto. left; now apply Rinv_0_lt_compat.
Qed.

Lemma Rmod_wrap x m : 0 <= x < m -> Rmod (x + m) m = x.
Proof.
  intros [H0 Hm]; unfold Rmod.
  assert (Hpos : 0 < m) by lra.
  replace (Int_part ((x + m) / m)) with 1%Z; [simpl; ring|].
  apply Int_part_spec; simpl.
  replace ((x + m) / m) with (x / m + 1) by (field; lra).
  split.
  - assert (x / m < 1).
    { apply (Rmult_lt_reg_r m); auto.
      replace (x / m * m) with x by (field; lra). lra. }
    lra.
  - assert (0 <= x / m).
    { apply Rmult_le_pos; auto. left; now apply Rinv_0_lt_compat. }
    lra.
Qed.

(** A real aspect value lies in [0, 360). *)
Lemma aspect_of_range gx gy :
  exists a, aspect_of (Fin gx) (Fin gy) = Fin a /\ 0 <= a < 360.
Proof.
  unfold aspect_of; simpl. eexists; split; [reflexivity|].
  apply Rmod_range; lra.
Qed.

Lemma slope_of_zero : slope_of (Fin 0) (Fin 0) = Fin 0.
Proof.
  unfold slope_of; simpl.
  destruct (Rlt_dec (0 * 0 + 0 * 0) 0) as [H|_]; [lra|]; simpl.
  replace (0 * 0 + 0 * 0) with 0 by ring.
  rewrite sqrt_0, atan_0. unfold degrees; f_equal; ring.
Qed.

Lemma slope_of_nan_l gy : slope_of NaN gy = NaN.
Proof. reflexivity. Qed.

Lemma slope_of_nan_r gx : slope_of gx NaN = NaN.
Proof. destruct gx; reflexivity. Qed.

Lemma aspect_of_nan_l gy : aspect_of NaN gy = NaN.
Proof. destruct gy; reflexivity. Qed.

(** The slope of real gradients is a real number. *)
Lemma slope_of_real gx gy :
  slope_of (Fin gx) (Fin gy)
  = Fin (degrees (atan (sqrt (gx * gx + gy * gy)))).
Proof.
  unfold slope_of; simpl.
  destruct (Rlt_dec (gx * gx + gy * gy) 0) as [H|_]; [|reflexivity].
  pose proof (Rle_0_sqr gx); pose proof (Rle_0_sqr gy).
  unfold Rsqr in *; lra.
Qed.

(** * The claims *)

(** ** C1: the gradient grids *)

Lemma offsets_taps : offsets = map tap_offset taps.
Proof. reflexivity. Qed.

Lemma convolve_mirrored g r c k00 k01 k02 k10 k11 k12 k20 k21 k22 :
  let k := [[k00; k01; k02]; [k10; k11; k12]; [k20; k21; k22]] in
  correlate_point g (flip k) NaN r c = mirrored_sum g k r c.
Proof.
  intros k. rewrite correlate_point_filter. unfold mirrored_sum.
  rewrite offsets_taps, filter_map_swap, map_map.
  rewrite (filter_ext_in
             (fun t => let '(dr, dc) := tap_offset t in
                       in_footprint (kernel_at k (1 - dr) (1 - dc)))
             (fun t => in_footprint (tap_weight (flip k) t))).
  - f_equal. apply map_ext_in; intros t Ht.
    apply filter_In in Ht as [Ht _].
    unfold taps in Ht; simpl in Ht.
    unfold tap_value, neighbor.
    repeat (destruct Ht as [<-|Ht];
            [rewrite fmul_comm; unfold tap_offset; cbn [fst snd];
             apply f_equal2; [apply f_equal2; lia | reflexivity]|]).
    contradiction.
  - intros t Ht. unfold taps in Ht; simpl in Ht.
    repeat (destruct Ht as [<-|Ht]; [reflexivity|]).
    contradiction.
Qed.

(** The cell size [main] passes. *)
Lemma unit_cellsize : 0 < 1 < 2 ^ 49.
Proof. split; [lra | apply Rlt_pow_R1; [lra | lia]]. Qed.

Lemma effective_eighth : effective (1 / (8 * 1)) = 1 / 8.
Proof.
  rewrite effective_scaled; [field | apply unit_cellsize | lra | lra].
Qed.

Lemma effective_quarter : effective (2 / (8 * 1)) = 2 / 8.
Proof.
  rewrite effective_scaled; [field | apply unit_cellsize | lra | lra].
Qed.

(** Index bounds on a concrete array. *)
Ltac in_range := vm_compute; lia.

(** What the code leaves at the centre of [ramp_east] for the x kernel. *)
Lemma ramp_east_grad_x :
  cell NaN (convolve ramp_east (zt_kernel_x 1) NaN) 1 1 = Fin (-1).
Proof.
  rewrite cell_convolve by in_range.
  change (correlate_point ramp_east (flip (zt_kernel_x 1)) NaN 1 1)
    with (grad ramp_east (zt_kernel_x 1) 1 1).
  rewrite (grad_zt_x _ _ _ _
             (fun _ j => match j with 0%nat => 0 | 1%nat => 1 | _ => 2 end)).
  - rewrite effective_eighth, effective_quarter. f_equal; lra.
  - intros i j Hi Hj.
    destruct i as [|[|[|i]]]; try lia;
      destruct j as [|[|[|j]]]; try lia; reflexivity.
Qed.

(** C1 as the claim words it fails: at the centre of [ramp_east] the code
    yields -1 for the Zevenbergen-Thorne x kernel, the un-mirrored sum of
    the claim yields +1. *)
Lemma gradient_sum_counterexample :
  slope_kernels 1 "zevenbergen_thorne" = Ok (zt_kernel_x 1, zt_kernel_y 1)
  /\ cell NaN (convolve ramp_east (zt_kernel_x 1) NaN) 1 1 = Fin (-1)
  /\ neighborhood_sum_spec ramp_east (zt_kernel_x 1) 1 1 = Fin 1
  /\ cell NaN (convolve ramp_east (zt_kernel_x 1) NaN) 1 1
     <> neighborhood_sum_spec ramp_east (zt_kernel_x 1) 1 1.
Proof.
  assert (Hspec : neighborhood_sum_spec ramp_east (zt_kernel_x 1) 1 1 = Fin 1).
  { unfold neighborhood_sum_spec, fsum; simpl.
    unfold kernel_at, zt_kernel_x, scale, weight; simpl. f_equal; lra. }
  repeat split; auto using ramp_east_grad_x.
  rewrite ramp_east_grad_x, Hspec. intros H; inversion H; lra.
Qed.

(** C1 (amended): [compute_slope] and [compute_aspect] work on gradient
    grids of the shape of the input, every cell (r, c) of which is the sum,
    over the offsets (dr, dc) in {-1,0,1}^2 whose weight is in the filter
    footprint, of input[r+dr][c+dc] * kernel[1-dr][1-dc] -- the kernel
    mirrored in both axes -- where a neighbour outside the array is NaN:
    the slope is [slope_of] of the two grids of the chosen kernel pair,
    the aspect is built from the two grids of the Zevenbergen-Thorne
    pair. *)
Theorem gradient_cell_mirrored dtm cellsize algorithm kernel_x kernel_y :
  0 < cellsize ->
  slope_kernels cellsize algorithm = Ok (kernel_x, kernel_y) ->
  (exists grad_x grad_y,
      compute_slope dtm cellsize algorithm
      = Ok (map2_grid slope_of grad_x grad_y)
      /\ rect (nrows dtm) (ncols dtm) grad_x
      /\ rect (nrows dtm) (ncols dtm) grad_y
      /\ forall r c, (r < nrows dtm)%nat -> (c < ncols dtm)%nat ->
           cell NaN grad_x r c = mirrored_sum dtm kernel_x r c
           /\ cell NaN grad_y r c = mirrored_sum dtm kernel_y r c)
  /\ (exists grad_x grad_y,
        compute_aspect dtm cellsize
        = map2_grid where_flat (map2_grid slope_of grad_x grad_y)
            (map2_grid aspect_of grad_x grad_y)
        /\ rect (nrows dtm) (ncols dtm) grad_x
        /\ rect (nrows dtm) (ncols dtm) grad_y
        /\ forall r c, (r < nrows dtm)%nat -> (c < ncols dtm)%nat ->
             cell NaN grad_x r c
             = mirrored_sum dtm (zt_kernel_x cellsize) r c
             /\ cell NaN grad_y r c
                = mirrored_sum dtm (zt_kernel_y cellsize) r c).
Proof.
  intros _ K. split.
  - exists (convolve dtm kernel_x NaN), (convolve dtm kernel_y NaN).
    split; [unfold compute_slope, bind; rewrite K; reflexivity|].
    split; [apply rect_convolve|]. split; [apply rect_convolve|].
    intros r c Hr Hc. rewrite !cell_convolve by assumption.
    apply slope_kernels_cases in K as [(_ & -> & ->) | (_ & -> & ->)];
      split; apply convolve_mirrored.
  - exists (convolve dtm (zt_kernel_x cellsize) NaN),
      (convolve dtm (zt_kernel_y cellsize) NaN).
    split; [reflexivity|].
    split; [apply rect_convolve|]. split; [apply rect_convolve|].
    intros r c Hr Hc. rewrite !cell_convolve by assumption.
    split; apply convolve_mirrored.
Qed.

Lemma gradient_cell_mirrored_witness :
  (exists grad_x grad_y,
      compute_slope ramp_east 1 "zevenbergen_thorne"
      = Ok (map2_grid slope_of grad_x grad_y)
      /\ rect (nrows ramp_east) (ncols ramp_east) grad_x
      /\ rect (nrows ramp_east) (ncols ramp_east) grad_y
      /\ forall r c, (r < nrows ramp_east)%nat -> (c < ncols ramp_east)%nat ->
           cell NaN grad_x r c = mirrored_sum ramp_east (zt_kernel_x 1) r c
           /\ cell NaN grad_y r c = mirrored_sum ramp_east (zt_kernel_y 1) r c)
  /\ (exists grad_x grad_y,
        compute_aspect ramp_east 1
        = map2_grid where_flat (map2_grid slope_of grad_x grad_y)
            (map2_grid aspect_of grad_x grad_y)
        /\ rect (nrows ramp_east) (ncols ramp_east) grad_x
        /\ rect (nrows ramp_east) (ncols ramp_east) grad_y
        /\ forall r c, (r < nrows ramp_east)%nat -> (c < ncols ramp_east)%nat ->
             cell NaN grad_x r c = mirrored_sum ramp_east (zt_kernel_x 1) r c
             /\ cell NaN grad_y r c
                = mirrored_sum ramp_east (zt_kernel_y 1) r c).
Proof.
  apply (gradient_cell_mirrored ramp_east 1 "zevenbergen_thorne");
    [lra | reflexivity].
Defined.

(** ** C3: flat grids *)

Lemma flat_window v g r c :
  flat_grid v g -> interior g r c ->
  forall i j, (i < 3)%nat -> (j < 3)%nat ->
              neighbor g NaN r c i j = Fin v.
Proof.
  intros Hf Hi i j Li Lj. rewrite neighbor_interior by assumption.
  unfold interior in Hi. apply Hf; lia.
Qed.

Lemma flat_gradients v g cellsize r c :
  flat_grid v g -> interior g r c ->
  grad g (zt_kernel_x cellsize) r c = Fin 0
  /\ grad g (zt_kernel_y cellsize) r c = Fin 0
  /\ grad g (horn_kernel_x cellsize) r c = Fin 0
  /\ grad g (horn_kernel_y cellsize) r c = Fin 0.
Proof.
  intros Hf Hi. pose proof (flat_window v g r c Hf Hi) as Hw.
  rewrite (grad_zt_x _ _ _ _ (fun _ _ => v) Hw).
  rewrite (grad_zt_y _ _ _ _ (fun _ _ => v) Hw).
  rewrite (grad_horn_x _ _ _ _ (fun _ _ => v) Hw).
  rewrite (grad_horn_y _ _ _ _ (fun _ _ => v) Hw).
  repeat split; f_equal; ring.
Qed.

Lemma where_flat_zero a : where_flat (Fin 0) a = Fin (-1).
Proof.
  unfold where_flat, flt. destruct (Rlt_dec 0 1) as [_|H]; [reflexivity|lra].
Qed.

(** On the border ring the gradients, hence slope and aspect, are [NaN]. *)
Lemma aspect_border_nan dtm cellsize r c :
  0 < cellsize < 2 ^ 49 -> on_border dtm r c ->
  cell NaN (compute_aspect dtm cellsize) r c = NaN.
Proof.
  intros Hc Hb. pose proof Hb as (Hr & Hcol & _).
  destruct (corner_kernels cellsize Hc) as (Kx & _).
  rewrite cell_compute_aspect by assumption.
  rewrite (grad_border_nan dtm _ r c Kx Hb).
  rewrite slope_of_nan_l, aspect_of_nan_l. reflexivity.
Qed.

Lemma slope_border_nan dtm cellsize algorithm slope r c :
  0 < cellsize < 2 ^ 49 -> on_border dtm r c ->
  compute_slope dtm cellsize algorithm = Ok slope ->
  cell NaN slope r c = NaN.
Proof.
  intros Hc Hb Hs. pose proof Hb as (Hr & Hcol & _).
  destruct (corner_kernels cellsize Hc) as (Zx & _ & Hx & _).
  destruct (compute_slope_ok _ _ _ _ Hs) as (kx & ky & K & _).
  rewrite (cell_compute_slope _ _ _ _ kx ky r c Hs K Hr Hcol).
  apply slope_kernels_cases in K as [(_ & -> & ->) | (_ & -> & ->)].
  - now rewrite (grad_border_nan dtm _ r c Zx Hb).
  - now rewrite (grad_border_nan dtm _ r c Hx Hb).
Qed.

Lemma flat3_flat : flat_grid 5 flat3.
Proof.
  intros r c Hr Hc.
  destruct r as [|[|[|r]]]; [| | |vm_compute in Hr; lia];
    (destruct c as [|[|[|c]]]; [| | |vm_compute in Hc; lia]); reflexivity.
Qed.

(** C3 as the claim words it fails: on the flat 3x3 grid the aspect of the
    corner cell is NaN, not -1. *)
Lemma flat_aspect_counterexample :
  flat_grid 5 flat3
  /\ cell NaN (compute_aspect flat3 1) 0 0 = NaN
  /\ cell NaN (compute_aspect flat3 1) 0 0 <> Fin (-1).
Proof.
  assert (H : cell NaN (compute_aspect flat3 1) 0 0 = NaN).
  { apply aspect_border_nan; [apply unit_cellsize|].
    unfold on_border; repeat split; try in_range; auto. }
  repeat split; [apply flat3_flat | assumption | rewrite H; discriminate].
Qed.

(** C3 (amended): on a perfectly flat grid whose elevation is a binary
    fraction of at most 50 bits, with the Zevenbergen-Thorne kernels and
    the cell size 1 that [main] passes, the slope is 0 and the aspect is
    -1 at every cell outside the border ring, and both are NaN on the
    ring.  (On such elevations every product and partial sum of the
    gradients is exact in float64 as well; with the weights 1/6 of [horn]
    or other elevations the float64 sums leave a rounding residual, which
    exact arithmetic does not show.) *)
Theorem flat_grid_exact dtm v r c :
  exact_elevation v -> flat_grid v dtm ->
  exists slope,
    compute_slope dtm 1 "zevenbergen_thorne" = Ok slope
    /\ (interior dtm r c ->
        cell NaN slope r c = Fin 0
        /\ cell NaN (compute_aspect dtm 1) r c = Fin (-1))
    /\ (on_border dtm r c ->
        cell NaN slope r c = NaN
        /\ cell NaN (compute_aspect dtm 1) r c = NaN).
Proof.
  intros _ Hf.
  destruct (compute_slope_returns dtm 1 "zevenbergen_thorne")
    as (slope & Hs); auto.
  exists slope; split; [assumption|]. split.
  - intros Hi. destruct (interior_in_range dtm r c Hi) as [Hr Hc].
    destruct (flat_gradients v dtm 1 r c Hf Hi) as (Zx & Zy & _).
    rewrite (cell_compute_slope _ _ _ _ _ _ r c Hs eq_refl Hr Hc).
    rewrite cell_compute_aspect by assumption.
    rewrite Zx, Zy, slope_of_zero. split; [reflexivity|].
    apply where_flat_zero.
  - intros Hb. split.
    + apply (slope_border_nan dtm 1 "zevenbergen_thorne");
        auto using unit_cellsize.
    + apply aspect_border_nan; auto using unit_cellsize.
Qed.

Lemma flat3_exact : exact_elevation 5.
Proof.
  exists 5%Z, 0%nat. repeat split; [simpl; lra | | lia].
  apply Z.leb_le; reflexivity.
Qed.

Lemma flat_grid_exact_witness :
  exists slope,
    compute_slope flat3 1 "zevenbergen_thorne" = Ok slope
    /\ (interior flat3 1 1 ->
        cell NaN slope 1 1 = Fin 0
        /\ cell NaN (compute_aspect flat3 1) 1 1 = Fin (-1))
    /\ (on_border flat3 1 1 ->
        cell NaN slope 1 1 = NaN
        /\ cell NaN (compute_aspect flat3 1) 1 1 = NaN).
Proof.
  apply (flat_grid_exact flat3 5 1 1); [apply flat3_exact | apply flat3_flat].
Defined.

(** ** C5: the values of the aspect grid *)

Lemma aspect_of_nan_r gx : aspect_of gx NaN = NaN.
Proof. reflexivity. Qed.

Lemma where_flat_cases gx gy :
  let s := slope_of gx gy in
  let a := where_flat s (aspect_of gx gy) in
  (a = NaN \/ a = Fin (-1) \/ exists x, a = Fin x /\ 0 <= x < 360)
  /\ (a = Fin (-1) <-> flt s 1 = true)
  /\ (a = NaN <-> s = NaN).
Proof.
  assert (Hnan : let a := where_flat NaN NaN in
                 (a = NaN \/ a = Fin (-1)
                  \/ exists x, a = Fin x /\ 0 <= x < 360)
                 /\ (a = Fin (-1) <-> flt NaN 1 = true)
                 /\ (a = NaN <-> NaN = NaN)).
  { simpl; repeat split; auto; discriminate. }
  cbv zeta in *.
  destruct gx as [|gx].
  - rewrite slope_of_nan_l, aspect_of_nan_l; exact Hnan.
  - destruct gy as [|gy].
    + rewrite slope_of_nan_r, aspect_of_nan_r; exact Hnan.
    + rewrite slope_of_real.
      destruct (aspect_of_range gx gy) as (a & Ha & Hr).
      rewrite Ha. unfold where_flat.
      destruct (flt (Fin _) 1) eqn:E.
      * repeat split; auto; discriminate.
      * repeat split; try discriminate.
        -- right; right; exists a; auto.
        -- intros H; inversion H; lra.
Qed.

(** C5 as the claim words it fails: the corner cell of the aspect of the
    flat 3x3 grid is neither -1 nor a real number. *)
Lemma aspect_values_counterexample :
  ~ (cell NaN (compute_aspect flat3 1) 0 0 = Fin (-1)
     \/ exists x, cell NaN (compute_aspect flat3 1) 0 0 = Fin x
                  /\ 0 <= x < 360).
Proof.
  assert (H : cell NaN (compute_aspect flat3 1) 0 0 = NaN).
  { apply aspect_border_nan; [apply unit_cellsize|].
    unfold on_border; repeat split; try in_range; auto. }
  rewrite H. intros [E | (x & E & _)]; discriminate.
Qed.

(** C5 (amended): every cell of the aspect grid is NaN, the sentinel -1 or
    a real number in [0, 360); it is -1 exactly where the slope recomputed
    from the Zevenbergen-Thorne gradients is below 1.0, and NaN exactly
    where that slope is NaN. *)
Theorem aspect_values dtm cellsize r c :
  0 < cellsize -> (r < nrows dtm)%nat -> (c < ncols dtm)%nat ->
  exists slope,
    compute_slope dtm cellsize "zevenbergen_thorne" = Ok slope /\
    let s := cell NaN slope r c in
    let a := cell NaN (compute_aspect dtm cellsize) r c in
    (a = NaN \/ a = Fin (-1) \/ exists x, a = Fin x /\ 0 <= x < 360)
    /\ (a = Fin (-1) <-> flt s 1 = true)
    /\ (a = NaN <-> s = NaN).
Proof.
  intros _ Hr Hc.
  destruct (compute_slope_returns dtm cellsize "zevenbergen_thorne")
    as (slope & Hs); auto.
  exists slope; split; [assumption|].
  rewrite (cell_compute_slope _ _ _ _ _ _ r c Hs eq_refl Hr Hc).
  rewrite cell_compute_aspect by assumption.
  apply where_flat_cases.
Qed.

Lemma aspect_values_witness :
  exists slope,
    compute_slope flat3 1 "zevenbergen_thorne" = Ok slope /\
    let s := cell NaN slope 1 1 in
    let a := cell NaN (compute_aspect flat3 1) 1 1 in
    (a = NaN \/ a = Fin (-1) \/ exists x, a = Fin x /\ 0 <= x < 360)
    /\ (a = Fin (-1) <-> flt s 1 = true)
    /\ (a = NaN <-> s = NaN).
Proof.
  apply (aspect_values flat3 1 1 1); [lra | in_range | in_range].
Defined.

(** ** C2: aspect on the four cardinal planes *)

Ltac window3 :=
  let i := fresh "i" in let j := fresh "j" in
  let Hi := fresh "Hi" in let Hj := fresh "Hj" in
  intros i j Hi Hj;
  destruct i as [|[|[|i]]]; try lia;
  destruct j as [|[|[|j]]]; try lia; reflexivity.

(** The gradients at the centre of a 3x3 array with window [z], for the
    unit cell size. *)
Section Centre.
Variables (g : grid fval) (z : nat -> nat -> R).
Hypothesis window :
  forall i j, (i < 3)%nat -> (j < 3)%nat ->
              neighbor g NaN 1 1 i j = Fin (z i j).

Lemma centre_gradients :
  grad g (zt_kernel_x 1) 1 1
  = Fin (1 / 8 * (z 0 0 - z 0 2 + z 2 0 - z 2 2) + 2 / 8 * (z 1 0 - z 1 2))
  /\ grad g (zt_kernel_y 1) 1 1
     = Fin (1 / 8 * (z 0 0 + z 0 2 - z 2 0 - z 2 2)
            + 2 / 8 * (z 0 1 - z 2 1)).
Proof.
  rewrite (grad_zt_x _ _ _ _ z window), (grad_zt_y _ _ _ _ z window).
  now rewrite effective_eighth, effective_quarter.
Qed.
End Centre.

Ltac decide_reals :=
  repeat match goal with
    | |- context [Rlt_dec ?a ?b] => destruct (Rlt_dec a b); try lra
    | |- context [Rle_dec ?a ?b] => destruct (Rle_dec a b); try lra
    end.

(** A unit gradient is a slope of 45 degrees: not flat. *)
Lemma unit_slope_not_flat gx gy a :
  gx * gx + gy * gy = 1 ->
  where_flat (slope_of (Fin gx) (Fin gy)) a = a.
Proof.
  intros H. rewrite slope_of_real, H, sqrt_1, atan_1.
  replace (PI / 4) with (/ 4 * PI) by lra.
  rewrite degrees_scale. unfold where_flat, flt. decide_reals. reflexivity.
Qed.

Lemma atan_zero_div d : atan (0 / d) = 0.
Proof. unfold Rdiv; rewrite Rmult_0_l; apply atan_0. Qed.

Lemma aspect_of_unit_gradients :
  aspect_of (Fin 0) (Fin (-1)) = Fin 270
  /\ aspect_of (Fin 0) (Fin 1) = Fin 90
  /\ aspect_of (Fin (-1)) (Fin 0) = Fin 0
  /\ aspect_of (Fin 1) (Fin 0) = Fin 180.
Proof.
  pose proof PI_RGT_0 as Hpi.
  unfold aspect_of; simpl; unfold Ratan2. repeat split; f_equal.
  - decide_reals.
    replace (- (PI / 2)) with (- / 2 * PI) by lra.
    rewrite degrees_scale.
    replace (- / 2 * 180 + 360) with 270 by lra.
    apply Rmod_small; lra.
  - decide_reals.
    replace (PI / 2) with (/ 2 * PI) by lra.
    rewrite degrees_scale.
    replace (/ 2 * 180 + 360) with (90 + 360) by lra.
    apply Rmod_wrap; lra.
  - decide_reals.
    rewrite atan_zero_div.
    replace 0 with (0 * PI) at 1 by lra.
    rewrite degrees_scale.
    replace (0 * 180 + 360) with (0 + 360) by lra.
    apply Rmod_wrap; lra.
  - decide_reals.
    rewrite atan_zero_div.
    replace (0 + PI) with (1 * PI) by lra.
    rewrite degrees_scale.
    replace (1 * 180 + 360) with (180 + 360) by lra.
    apply Rmod_wrap; lra.
Qed.

Section CentreAspect.
Variables (g : grid fval) (z : nat -> nat -> R) (gx gy : R).
Hypothesis rows : nrows g = 3%nat.
Hypothesis cols : ncols g = 3%nat.
Hypothesis window :
  forall i j, (i < 3)%nat -> (j < 3)%nat ->
              neighbor g NaN 1 1 i j = Fin (z i j).
Hypothesis x_value :
  1 / 8 * (z 0 0 - z 0 2 + z 2 0 - z 2 2) + 2 / 8 * (z 1 0 - z 1 2) = gx.
Hypothesis y_value :
  1 / 8 * (z 0 0 + z 0 2 - z 2 0 - z 2 2) + 2 / 8 * (z 0 1 - z 2 1) = gy.
Hypothesis unit_gradient : gx * gx + gy * gy = 1.

Lemma centre_aspect :
  cell NaN (compute_aspect g 1) 1 1 = aspect_of (Fin gx) (Fin gy).
Proof.
  rewrite cell_compute_aspect by lia.
  destruct (centre_gradients g z window) as [-> ->].
  rewrite x_value, y_value. now apply unit_slope_not_flat.
Qed.
End CentreAspect.

(** C2, the code at the four unit planes (cell size 1, centre cell):
    the plane rising toward south yields 270, toward north 90, toward east
    0 and toward west 180. *)
Theorem aspect_cardinal_planes :
  cell NaN (compute_aspect ramp_south 1) 1 1 = Fin 270
  /\ cell NaN (compute_aspect ramp_north 1) 1 1 = Fin 90
  /\ cell NaN (compute_aspect ramp_east 1) 1 1 = Fin 0
  /\ cell NaN (compute_aspect ramp_west 1) 1 1 = Fin 180.
Proof.
  destruct aspect_of_unit_gradients as (A270 & A90 & A0 & A180).
  repeat split.
  - rewrite (centre_aspect ramp_south (fun i _ => rising i) 0 (-1));
      try reflexivity; try window3; simpl; try lra. exact A270.
  - rewrite (centre_aspect ramp_north (fun i _ => falling i) 0 1);
      try reflexivity; try window3; simpl; try lra. exact A90.
  - rewrite (centre_aspect ramp_east (fun _ j => rising j) (-1) 0);
      try reflexivity; try window3; simpl; try lra. exact A0.
  - rewrite (centre_aspect ramp_west (fun _ j => falling j) 1 0);
      try reflexivity; try window3; simpl; try lra. exact A180.
Qed.

(** ** Writing cells in loops *)

Section ListUpdates.
Context {A : Type}.

Lemma set_nth_length n (v : A) l :
  List.length (set_nth n v l) = List.length l.
Proof.
  revert n; induction l as [|x l IH]; intros [|n]; simpl; auto.
Qed.

Lemma nth_set_nth n m (v d : A) l :
  nth m (set_nth n v l) d
  = if (m =? n)%nat && (n <? List.length l)%nat then v else nth m l d.
Proof.
  revert n m; induction l as [|x l IH]; intros n m.
  - destruct n, m; simpl; now rewrite ?andb_false_r.
  - destruct n as [|n], m as [|m]; simpl; auto.
Qed.

End ListUpdates.

Section Updates.
Context {A : Type}.

Lemma rect_set_cell h w (g : grid A) r c v :
  rect h w g -> rect h w (set_cell g r c v).
Proof.
  intros [L F]; unfold rect, set_cell; split.
  - now rewrite set_nth_length.
  - rewrite Forall_forall in *; intros row Hin.
    destruct (In_nth _ _ [] Hin) as (m & Hm & <-).
    rewrite set_nth_length in Hm.
    rewrite nth_set_nth.
    destruct ((m =? r)%nat && (r <? List.length g)%nat)%bool eqn:E.
    + rewrite set_nth_length.
      apply andb_true_iff in E as [_ E]; apply Nat.ltb_lt in E.
      apply F, nth_In; assumption.
    + apply F, nth_In; assumption.
Qed.

Lemma cell_set_cell h w (g : grid A) d r c v r' c' :
  rect h w g -> (r < h)%nat -> (c < w)%nat ->
  cell d (set_cell g r c v) r' c'
  = if (r' =? r)%nat && (c' =? c)%nat then v else cell d g r' c'.
Proof.
  intros Rg Hr Hc; unfold cell, set_cell.
  pose proof (rect_row h w g r Rg Hr) as Wr.
  destruct Rg as [L _].
  rewrite nth_set_nth.
  assert (Lt : (r <? List.length g)%nat = true) by (apply Nat.ltb_lt; lia).
  rewrite Lt, andb_true_r.
  destruct (Nat.eqb_spec r' r) as [->|Hne]; simpl; auto.
  rewrite nth_set_nth.
  assert (Lc : (c <? List.length (nth r g []))%nat = true)
    by (apply Nat.ltb_lt; lia).
  now rewrite Lc, andb_true_r.
Qed.

Lemma fill_row_spec h w f i cols (t : grid A) :
  rect h w t -> (i < h)%nat -> (forall j, In j cols -> (j < w)%nat) ->
  rect h w (fill_row f i cols t)
  /\ forall d r c,
      cell d (fill_row f i cols t) r c
      = if (r =? i)%nat && mem c cols then f i c else cell d t r c.
Proof.
  unfold fill_row; revert t; induction cols as [|j cols IH];
    intros t Rt Hi Hcols; simpl.
  - split; auto. intros; now rewrite andb_false_r.
  - assert (Hj : (j < w)%nat) by (apply Hcols; now left).
    destruct (IH (set_cell t i j (f i j))) as [R' C'];
      auto using rect_set_cell.
    { intros; apply Hcols; now right. }
    split; auto. intros d r c. rewrite C'.
    rewrite (cell_set_cell h w) by assumption.
    destruct (Nat.eqb_spec r i) as [->|Hr]; simpl; auto.
    destruct (mem c cols); simpl.
    + now rewrite orb_true_r.
    + rewrite orb_false_r. destruct (Nat.eqb_spec c j) as [->|]; auto.
Qed.

Lemma fill_spec h w f rows cols (t : grid A) :
  rect h w t ->
  (forall i, In i rows -> (i < h)%nat) ->
  (forall j, In j cols -> (j < w)%nat) ->
  rect h w (fill f rows cols t)
  /\ forall d r c,
      cell d (fill f rows cols t) r c
      = if mem r rows && mem c cols then f r c else cell d t r c.
Proof.
  unfold fill; revert t; induction rows as [|i rows IH];
    intros t Rt Hrows Hcols; simpl.
  - split; auto.
  - assert (Hi : (i < h)%nat) by (apply Hrows; now left).
    destruct (fill_row_spec h w f i cols t Rt Hi Hcols) as [R1 C1].
    destruct (IH (fill_row f i cols t)) as [R' C']; auto.
    { intros; apply Hrows; now right. }
    split; auto. intros d r c. rewrite C', C1.
    destruct (Nat.eqb_spec r i) as [->|Hr]; simpl.
    + destruct (mem i rows), (mem c cols); simpl; auto.
    + reflexivity.
Qed.

Lemma fill_no_cols f rows (t : grid A) : fill f rows [] t = t.
Proof. unfold fill; induction rows; simpl; auto. Qed.
End Updates.

Lemma mem_range n a b : mem n (range a b) = ((a <=? n)%nat && (n <? b)%nat)%bool.
Proof.
  unfold mem, range.
  destruct (existsb (Nat.eqb n) (seq a (b - a))) eqn:E.
  - apply existsb_exists in E as (m & Hin & Hm).
    apply Nat.eqb_eq in Hm; subst m. apply in_seq in Hin.
    symmetry; apply andb_true_iff; split;
      [apply Nat.leb_le | apply Nat.ltb_lt]; lia.
  - symmetry; apply not_true_is_false; intros H.
    apply andb_true_iff in H as [H1 H2].
    apply Nat.leb_le in H1; apply Nat.ltb_lt in H2.
    assert (Hex : existsb (Nat.eqb n) (seq a (b - a)) = true).
    { apply existsb_exists; exists n; split;
        [apply in_seq; lia | apply Nat.eqb_refl]. }
    congruence.
Qed.

Lemma in_range_lt i a b : In i (range a b) -> (a <= i < b)%nat.
Proof. unfold range; intros H; apply in_seq in H; lia. Qed.

Lemma compute_tri_fill dtm :
  compute_tri dtm
  = fill (tri_value dtm) (range 1 (nrows dtm - 1)) (range 1 (ncols dtm - 1))
      (tabulate (nrows dtm) (ncols dtm) (fun _ _ => Fin 0)).
Proof. reflexivity. Qed.

(** Every index the loops read or write lies inside the array. *)
Lemma compute_tri_indices (dtm : grid fval) i j :
  In i (range 1 (nrows dtm - 1)) -> In j (range 1 (ncols dtm - 1)) ->
  (1 <= i /\ i + 1 < nrows dtm /\ 1 <= j /\ j + 1 < ncols dtm)%nat.
Proof.
  intros Hi Hj; apply in_range_lt in Hi; apply in_range_lt in Hj; lia.
Qed.

Lemma compute_tri_cells dtm :
  rect (nrows dtm) (ncols dtm) (compute_tri dtm)
  /\ forall r c,
      cell NaN (compute_tri dtm) r c
      = if mem r (range 1 (nrows dtm - 1)) && mem c (range 1 (ncols dtm - 1))
        then tri_value dtm r c
        else cell NaN (tabulate (nrows dtm) (ncols dtm) (fun _ _ => Fin 0)) r c.
Proof.
  rewrite compute_tri_fill.
  destruct (fill_spec (nrows dtm) (ncols dtm) (tri_value dtm)
              (range 1 (nrows dtm - 1)) (range 1 (ncols dtm - 1))
              (tabulate (nrows dtm) (ncols dtm) (fun _ _ => Fin 0)))
    as [R C]; auto using rect_tabulate.
  - intros i Hi; apply in_range_lt in Hi; lia.
  - intros j Hj; apply in_range_lt in Hj; lia.
Qed.

(** ** C4: ruggedness cell by cell *)

Lemma tri_value_spec dtm r c :
  (1 <= r)%nat -> (1 <= c)%nat -> tri_value dtm r c = ruggedness_spec dtm r c.
Proof.
  intros Hr Hc; unfold tri_value, ruggedness_spec, neighbors8.
  cbn [map].
  replace (Z.to_nat (Z.of_nat r + -1)) with (r - 1)%nat by lia.
  replace (Z.to_nat (Z.of_nat r + 0)) with r by lia.
  replace (Z.to_nat (Z.of_nat r + 1)) with (r + 1)%nat by lia.
  replace (Z.to_nat (Z.of_nat c + -1)) with (c - 1)%nat by lia.
  replace (Z.to_nat (Z.of_nat c + 0)) with c by lia.
  replace (Z.to_nat (Z.of_nat c + 1)) with (c + 1)%nat by lia.
  reflexivity.
Qed.

(** C4: at every interior cell the ruggedness is the square root of the
    mean squared difference to the eight neighbours, and every cell of the
    border ring is 0 whatever the input holds. *)
Theorem ruggedness_cells (dtm : grid fval) r c :
  (interior dtm r c ->
   cell NaN (compute_tri dtm) r c = ruggedness_spec dtm r c)
  /\ (on_border dtm r c -> cell NaN (compute_tri dtm) r c = Fin 0).
Proof.
  destruct (compute_tri_cells dtm) as [_ C]. rewrite C, !mem_range.
  split.
  - intros (R1 & R2 & C1 & C2).
    replace (_ && _ && _)%bool with true.
    + now apply tri_value_spec.
    + symmetry; rewrite !andb_true_iff.
      repeat split; first [apply Nat.leb_le | apply Nat.ltb_lt]; lia.
  - intros (Hr & Hc & Hb).
    replace (_ && _ && _)%bool with false.
    + now apply cell_tabulate.
    + symmetry; rewrite !andb_false_iff.
      rewrite !Nat.leb_gt, !Nat.ltb_ge. lia.
Qed.

Lemma ruggedness_cells_witness :
  cell NaN (compute_tri ramp_east) 1 1 = ruggedness_spec ramp_east 1 1
  /\ cell NaN (compute_tri ramp_east) 0 2 = Fin 0.
Proof.
  split.
  - apply (proj1 (ruggedness_cells ramp_east 1 1)).
    unfold interior; in_range.
  - apply (proj2 (ruggedness_cells ramp_east 0 2)).
    unfold on_border; in_range.
Defined.

(** ** C10: arrays without interior *)

Lemma compute_tri_small (dtm : grid fval) :
  (nrows dtm < 3 \/ ncols dtm < 3)%nat ->
  compute_tri dtm = tabulate (nrows dtm) (ncols dtm) (fun _ _ => Fin 0)
  /\ (range 1 (nrows dtm - 1) = [] \/ range 1 (ncols dtm - 1) = []).
Proof.
  intros H. rewrite compute_tri_fill.
  destruct H as [H | H].
  - assert (E : range 1 (nrows dtm - 1) = []).
    { unfold range. replace (nrows dtm - 1 - 1)%nat with 0%nat by lia.
      reflexivity. }
    rewrite E; split; auto.
  - assert (E : range 1 (ncols dtm - 1) = []).
    { unfold range. replace (ncols dtm - 1 - 1)%nat with 0%nat by lia.
      reflexivity. }
    rewrite E; split; auto using fill_no_cols.
Qed.

Lemma log_statistics_ok reduction (a : grid fval) :
  (0 < nrows a)%nat -> (0 < ncols a)%nat ->
  log_statistics reduction a = Ok tt.
Proof.
  intros Hr Hc; unfold log_statistics.
  replace (nrows a =? 0)%nat with false by (symmetry; apply Nat.eqb_neq; lia).
  replace (ncols a =? 0)%nat with false by (symmetry; apply Nat.eqb_neq; lia).
  reflexivity.
Qed.

Lemma compute_tri_shape (dtm : grid fval) :
  nrows (compute_tri dtm) = nrows dtm /\ ncols (compute_tri dtm) = ncols dtm.
Proof. apply same_shape_dims, (compute_tri_cells dtm). Qed.

Lemma compute_tri_call_ok (dtm : grid fval) :
  (0 < nrows dtm)%nat -> (0 < ncols dtm)%nat ->
  compute_tri_call dtm = Ok (compute_tri dtm).
Proof.
  intros Hr Hc. destruct (compute_tri_shape dtm) as [En Ec].
  unfold compute_tri_call, bind.
  now rewrite log_statistics_ok by lia.
Qed.

(** C10 as the claim words it fails: an array without rows has fewer than
    three rows, and the call raises ValueError in its log line instead of
    returning an array. *)
Lemma ruggedness_empty_counterexample :
  (nrows (@nil (list fval)) < 3)%nat
  /\ compute_tri_call []
     = ValueError
         "zero-size array to reduction operation minimum which has no identity"
  /\ forall tri, compute_tri_call [] <> Ok tri.
Proof.
  repeat split; [vm_compute; lia | intros tri H; discriminate H].
Qed.

(** C10 (amended): for an array with at least one row and one column and
    fewer than three rows or fewer than three columns, the call returns
    the all-zero array of the input's shape without raising; one of the
    two loops has nothing to run over, so no cell is read. *)
Theorem ruggedness_small_grid (dtm : grid fval) :
  (0 < nrows dtm)%nat -> (0 < ncols dtm)%nat ->
  (nrows dtm < 3 \/ ncols dtm < 3)%nat ->
  compute_tri_call dtm
  = Ok (tabulate (nrows dtm) (ncols dtm) (fun _ _ => Fin 0))
  /\ (range 1 (nrows dtm - 1) = [] \/ range 1 (ncols dtm - 1) = []).
Proof.
  intros Hr Hc H. rewrite compute_tri_call_ok by assumption.
  destruct (compute_tri_small dtm H) as [-> Hl]. auto.
Qed.

Lemma ruggedness_small_grid_witness :
  compute_tri_call two_rows
  = Ok (tabulate (nrows two_rows) (ncols two_rows) (fun _ _ => Fin 0))
  /\ (range 1 (nrows two_rows - 1) = [] \/ range 1 (ncols two_rows - 1) = []).
Proof.
  apply (ruggedness_small_grid two_rows); [in_range | in_range | left; in_range].
Defined.

(** ** Colour arrays *)

Lemma rgb_shape_zeros3 h w : rgb_shape h w (zeros3 h w).
Proof.
  unfold rgb_shape, zeros3; split; auto.
  repeat constructor; apply rect_tabulate.
Qed.

Lemma pixel_zeros3 h w r c :
  (r < h)%nat -> (c < w)%nat -> pixel (zeros3 h w) r c = (0, 0, 0)%Z.
Proof.
  intros Hr Hc; unfold pixel, zeros3; simpl.
  now rewrite !cell_tabulate.
Qed.

Lemma rgb_shape_inv h w rgb :
  rgb_shape h w rgb ->
  exists R G B, rgb = [R; G; B] /\ rect h w R /\ rect h w G /\ rect h w B.
Proof.
  intros [L F]. destruct rgb as [|R [|G [|B [|X rgb]]]]; try discriminate.
  inversion F as [|? ? HR F1]; inversion F1 as [|? ? HG F2];
    inversion F2 as [|? ? HB F3]; subst.
  exists R, G, B; auto.
Qed.

Lemma paint_spec h w rgb mask col :
  rgb_shape h w rgb -> rect h w mask ->
  rgb_shape h w (paint rgb mask col)
  /\ forall r c, (r < h)%nat -> (c < w)%nat ->
       pixel (paint rgb mask col) r c
       = if cell false mask r c then col else pixel rgb r c.
Proof.
  intros Hs Hm.
  destruct (rgb_shape_inv h w rgb Hs) as (R & G & B & -> & HR & HG & HB).
  destruct col as [[cr cg] cb].
  unfold paint, assign_masked; cbn [nth set_nth channel]. split.
  - split; auto.
    repeat (apply Forall_cons; [now apply rect_map2|]). apply Forall_nil.
  - intros r c Hr Hc. unfold pixel; cbn [nth].
    rewrite !(cell_map2 h w _ _ _ 0%Z false 0%Z) by assumption.
    now destruct (cell false mask r c).
Qed.

Lemma mask_spec h w (f : fval -> bool) (g : grid fval) r c :
  rect h w g -> (r < h)%nat -> (c < w)%nat ->
  rect h w (map_grid f g)
  /\ cell false (map_grid f g) r c = f (cell NaN g r c).
Proof.
  intros Rg Hr Hc; split.
  - now apply rect_map_grid.
  - now apply (cell_map_grid h w).
Qed.

Lemma paint_layers_spec h w layers :
  Forall (fun l => rect h w (fst l)) layers ->
  forall rgb, rgb_shape h w rgb ->
  rgb_shape h w (paint_layers rgb layers)
  /\ forall r c, (r < h)%nat -> (c < w)%nat ->
       pixel (paint_layers rgb layers) r c
       = fold_left (fun col l => if cell false (fst l) r c then snd l else col)
           layers (pixel rgb r c).
Proof.
  unfold paint_layers.
  induction 1 as [|l layers Hl _ IH]; intros rgb Hs; simpl; auto.
  destruct (paint_spec h w rgb (fst l) (snd l) Hs Hl) as [S1 P1].
  destruct (IH _ S1) as [S2 P2]. split; auto.
  intros r c Hr Hc. now rewrite P2, P1.
Qed.

Lemma colorize_slope_skitour slope_array :
  colorize_slope slope_array "skitour"
  = Ok (paint_layers (zeros3 (nrows slope_array) (ncols slope_array))
          [ (bin_mask 0 20 slope_array, green);
            (bin_mask 20 45 slope_array, yellow);
            (bin_mask 45 90 slope_array, red) ]).
Proof. reflexivity. Qed.

Lemma colorize_slope_climbing slope_array :
  colorize_slope slope_array "climbing"
  = Ok (paint_layers (zeros3 (nrows slope_array) (ncols slope_array))
          [ (bin_mask 0 20 slope_array, (0, 0, 255)%Z);
            (bin_mask 20 35 slope_array, (0, 255, 0)%Z);
            (bin_mask 35 50 slope_array, yellow);
            (bin_mask 50 90 slope_array, red) ]).
Proof. reflexivity. Qed.

Lemma paint_sectors aspect_array (ds : list (R * R * color)) rgb :
  fold_left
    (fun rgb '(lower, upper, c) =>
       let mask := map_grid (between lower upper) aspect_array in
       paint rgb mask c)
    ds rgb
  = paint_layers rgb (map (sector_layer aspect_array) ds).
Proof.
  unfold paint_layers; revert rgb.
  induction ds as [|[[lower upper] c] ds IH]; intros rgb; simpl; auto.
Qed.

Lemma colorize_aspect_layers aspect_array :
  colorize_aspect aspect_array
  = paint_layers (zeros3 (nrows aspect_array) (ncols aspect_array))
      (map (sector_layer aspect_array) directions
       ++ [(map_grid (fun a => feq a (-1)) aspect_array, (128, 128, 128)%Z)]).
Proof.
  unfold colorize_aspect; cbv zeta. rewrite paint_sectors.
  generalize (map (sector_layer aspect_array) directions); intros layers.
  unfold paint_layers. rewrite fold_left_app. reflexivity.
Qed.

Lemma rect_bin_mask h w lower upper a :
  rect h w a -> rect h w (bin_mask lower upper a).
Proof. apply rect_map_grid. Qed.

Lemma cell_bin_mask h w lower upper a r c :
  rect h w a -> (r < h)%nat -> (c < w)%nat ->
  cell false (bin_mask lower upper a) r c = between lower upper (cell NaN a r c).
Proof. intros; now apply (cell_map_grid h w). Qed.

Lemma pixel_skitour slope_array r c :
  rect (nrows slope_array) (ncols slope_array) slope_array ->
  (r < nrows slope_array)%nat -> (c < ncols slope_array)%nat ->
  exists rgb,
    colorize_slope slope_array "skitour" = Ok rgb
    /\ pixel rgb r c = skitour_color (cell NaN slope_array r c).
Proof.
  intros Rs Hr Hc. rewrite colorize_slope_skitour.
  eexists; split; [reflexivity|].
  edestruct paint_layers_spec as [_ P];
    [ | apply rgb_shape_zeros3 | rewrite P by eassumption ].
  - repeat (apply Forall_cons; [now apply rect_bin_mask|]). apply Forall_nil.
  - rewrite pixel_zeros3 by assumption. cbn [fold_left fst snd].
    rewrite !(cell_bin_mask (nrows slope_array) (ncols slope_array))
      by assumption.
    unfold skitour_color.
    generalize (cell NaN slope_array r c); intros v.
    destruct (between 45 90 v), (between 20 45 v), (between 0 20 v);
      reflexivity.
Qed.

(** ** C7: the bin boundary at 20 degrees *)

(** C7: a slope cell of exactly 20.0 is coloured yellow (255, 255, 0) by
    the [skitour] scheme: the bins are half-open, 20.0 lies in [20, 45). *)
Theorem skitour_twenty_is_yellow slope_array r c :
  rect (nrows slope_array) (ncols slope_array) slope_array ->
  (r < nrows slope_array)%nat -> (c < ncols slope_array)%nat ->
  cell NaN slope_array r c = Fin 20 ->
  exists rgb,
    colorize_slope slope_array "skitour" = Ok rgb
    /\ pixel rgb r c = (255, 255, 0)%Z.
Proof.
  intros Rs Hr Hc Hv.
  destruct (pixel_skitour slope_array r c Rs Hr Hc) as (rgb & E & P).
  exists rgb; split; auto. rewrite P, Hv.
  unfold skitour_color, between, fge, flt. decide_reals. reflexivity.
Qed.

Lemma skitour_twenty_is_yellow_witness :
  exists rgb,
    colorize_slope slopes_2x2 "skitour" = Ok rgb
    /\ pixel rgb 0 1 = (255, 255, 0)%Z.
Proof.
  apply (skitour_twenty_is_yellow slopes_2x2 0 1);
    [ | in_range | in_range | reflexivity].
  split; [reflexivity | repeat constructor].
Defined.

(** ** C8: unknown names *)

(** C8: an algorithm name other than the two known ones makes
    [compute_slope] raise, and a scheme name other than the two presets
    makes [colorize_slope] raise, whatever the array holds: the result is
    the error alone, no array. *)
Theorem unknown_names_fail (name : string) (dtm : grid fval) (cellsize : R)
  (slope_array : grid fval) :
  (name <> "zevenbergen_thorne"%string -> name <> "horn"%string ->
   compute_slope dtm cellsize name
   = ValueError ("Unknown algorithm: " ++ name)%string)
  /\ (name <> "skitour"%string -> name <> "climbing"%string ->
      colorize_slope slope_array name
      = ValueError ("Unknown algorithm: " ++ name)%string).
Proof.
  split; intros H1 H2.
  - unfold compute_slope, slope_kernels.
    apply String.eqb_neq in H1, H2. now rewrite H1, H2.
  - unfold colorize_slope, slope_scheme.
    apply String.eqb_neq in H1, H2. now rewrite H1, H2.
Qed.

Lemma unknown_names_fail_witness :
  compute_slope flat3 1 "sobel" = ValueError "Unknown algorithm: sobel"
  /\ colorize_slope flat3 "sobel" = ValueError "Unknown algorithm: sobel".
Proof.
  destruct (unknown_names_fail "sobel" flat3 1 flat3) as [Hs Hc].
  split; [apply Hs | apply Hc]; discriminate.
Defined.

(** ** C9: shapes *)

Lemma colorize_slope_returns slope_array scheme :
  scheme = "skitour"%string \/ scheme = "climbing"%string ->
  rect (nrows slope_array) (ncols slope_array) slope_array ->
  exists rgb, colorize_slope slope_array scheme = Ok rgb
              /\ rgb_shape (nrows slope_array) (ncols slope_array) rgb.
Proof.
  intros [-> | ->] Rs.
  - rewrite colorize_slope_skitour. eexists; split; [reflexivity|].
    apply paint_layers_spec; [|apply rgb_shape_zeros3].
    repeat (apply Forall_cons; [now apply rect_bin_mask|]). apply Forall_nil.
  - rewrite colorize_slope_climbing. eexists; split; [reflexivity|].
    apply paint_layers_spec; [|apply rgb_shape_zeros3].
    repeat (apply Forall_cons; [now apply rect_bin_mask|]). apply Forall_nil.
Qed.

Lemma colorize_aspect_shape aspect_array :
  rect (nrows aspect_array) (ncols aspect_array) aspect_array ->
  rgb_shape (nrows aspect_array) (ncols aspect_array)
    (colorize_aspect aspect_array).
Proof.
  intros Ra. rewrite colorize_aspect_layers.
  apply paint_layers_spec; [|apply rgb_shape_zeros3].
  apply Forall_app; split.
  - apply Forall_forall; intros l Hl.
    apply in_map_iff in Hl as (d & <- & _). now apply rect_bin_mask.
  - apply Forall_cons; [now apply rect_map_grid | apply Forall_nil].
Qed.

Lemma rgb_shape_source {A B} (src : grid A) (out : grid B) rgb :
  same_shape src out -> rgb_shape (nrows out) (ncols out) rgb ->
  rgb_shape (nrows src) (ncols src) rgb.
Proof.
  intros S. destruct (same_shape_dims src out S) as [-> ->]. auto.
Qed.

Lemma compute_slope_call_ok dtm cellsize algorithm slope :
  (0 < nrows dtm)%nat -> (0 < ncols dtm)%nat ->
  compute_slope dtm cellsize algorithm = Ok slope ->
  compute_slope_call dtm cellsize algorithm = Ok slope.
Proof.
  intros Hr Hc Hs.
  destruct (same_shape_dims dtm slope (rect_compute_slope _ _ _ _ Hs))
    as [En Ec].
  unfold compute_slope_call, bind. rewrite Hs.
  now rewrite log_statistics_ok by lia.
Qed.

(** C9: for an input of H >= 1 rows and W >= 1 columns the calls return,
    and slope, aspect and ruggedness have H rows of W cells, as has each
    of the three bands of the two colorized outputs.  (On a zero-size
    array the calls of [compute_slope] and [compute_tri] raise in their
    log line and derive no array.) *)
Theorem derived_shapes (dtm : grid fval) (cellsize : R)
  (algorithm scheme : string) :
  (0 < nrows dtm)%nat -> (0 < ncols dtm)%nat ->
  algorithm = "zevenbergen_thorne"%string \/ algorithm = "horn"%string ->
  scheme = "skitour"%string \/ scheme = "climbing"%string ->
  exists slope slope_rgb tri,
    compute_slope_call dtm cellsize algorithm = Ok slope
    /\ colorize_slope slope scheme = Ok slope_rgb
    /\ compute_tri_call dtm = Ok tri
    /\ rect (nrows dtm) (ncols dtm) slope
    /\ rect (nrows dtm) (ncols dtm) (compute_aspect dtm cellsize)
    /\ rect (nrows dtm) (ncols dtm) tri
    /\ (List.length slope_rgb = 3%nat
        /\ Forall (rect (nrows dtm) (ncols dtm)) slope_rgb)
    /\ (List.length (colorize_aspect (compute_aspect dtm cellsize)) = 3%nat
        /\ Forall (rect (nrows dtm) (ncols dtm))
             (colorize_aspect (compute_aspect dtm cellsize))).
Proof.
  intros Hr Hc Ha Hs.
  destruct (compute_slope_returns dtm cellsize algorithm Ha) as (slope & E).
  pose proof (compute_slope_call_ok _ _ _ _ Hr Hc E) as Ecall.
  pose proof (rect_compute_slope _ _ _ _ E) as Rslope.
  pose proof (rect_compute_aspect dtm cellsize) as Raspect.
  destruct (colorize_slope_returns slope scheme Hs (rect_dims _ _ _ Rslope))
    as (rgb & Ec & Src).
  pose proof (compute_tri_call_ok dtm Hr Hc) as Etri.
  pose proof (proj1 (compute_tri_cells dtm)) as Rtri.
  pose proof (rgb_shape_source dtm slope rgb Rslope Src) as S1.
  assert (S2 : rgb_shape (nrows dtm) (ncols dtm)
                 (colorize_aspect (compute_aspect dtm cellsize))).
  { apply (rgb_shape_source dtm (compute_aspect dtm cellsize) _ Raspect).
    apply colorize_aspect_shape, (rect_dims _ _ _ Raspect). }
  exists slope, rgb, (compute_tri dtm).
  exact (conj Ecall (conj Ec (conj Etri (conj Rslope (conj Raspect
          (conj Rtri (conj S1 S2))))))).
Qed.

Lemma derived_shapes_witness :
  exists slope slope_rgb tri,
    compute_slope_call two_rows 1 "horn" = Ok slope
    /\ colorize_slope slope "climbing" = Ok slope_rgb
    /\ compute_tri_call two_rows = Ok tri
    /\ rect (nrows two_rows) (ncols two_rows) slope
    /\ rect (nrows two_rows) (ncols two_rows) (compute_aspect two_rows 1)
    /\ rect (nrows two_rows) (ncols two_rows) tri
    /\ (List.length slope_rgb = 3%nat
        /\ Forall (rect (nrows two_rows) (ncols two_rows)) slope_rgb)
    /\ (List.length (colorize_aspect (compute_aspect two_rows 1)) = 3%nat
        /\ Forall (rect (nrows two_rows) (ncols two_rows))
             (colorize_aspect (compute_aspect two_rows 1))).
Proof.
  apply (derived_shapes two_rows 1 "horn" "climbing");
    [in_range | in_range | right; reflexivity | right; reflexivity].
Defined.

(** ** C6: the aspect does not depend on the slope algorithm *)

Lemma choice_ok_schemes scheme :
  choice_ok ["skitour"; "climbing"]%string scheme = true ->
  scheme = "skitour"%string \/ scheme = "climbing"%string.
Proof.
  unfold choice_ok; simpl. rewrite orb_false_r.
  intros H; apply orb_true_iff in H as [H | H];
    apply String.eqb_eq in H; auto.
Qed.

(** The files of a run that gets past the argument and input checks. *)
Lemma main_files algorithm scheme no_aspect no_tri dtm :
  algorithm = "zevenbergen_thorne"%string \/ algorithm = "horn"%string ->
  scheme = "skitour"%string \/ scheme = "climbing"%string ->
  exists slope slope_rgb,
    compute_slope dtm 1 algorithm = Ok slope
    /\ main (with_algorithm algorithm scheme no_aspect no_tri) (Some dtm)
       = ([("slope_degrees.tif"%string, Band slope (-9999))]
          ++ (if no_aspect then []
              else [("aspect_degrees.tif"%string,
                     Band (compute_aspect dtm 1) (-1));
                    ("aspect_colorized.tif"%string,
                     Bands (colorize_aspect (compute_aspect dtm 1)))])
          ++ [("slope_colorized.tif"%string, Bands slope_rgb)]
          ++ (if no_tri then []
              else [("tri.tif"%string, Band (compute_tri dtm) (-9999))]),
          Done).
Proof.
  intros Ha Hs.
  destruct (compute_slope_returns dtm 1 algorithm Ha) as (slope & E).
  pose proof (rect_compute_slope _ _ _ _ E) as Rslope.
  destruct (colorize_slope_returns slope scheme Hs (rect_dims _ _ _ Rslope))
    as (rgb & Ec & _).
  exists slope, rgb; split; [assumption|].
  unfold main, with_algorithm; cbn [slope_algorithm colorize_slope_scheme
                                    skip_aspect skip_tri].
  replace (choice_ok _ algorithm) with true
    by (destruct Ha as [-> | ->]; reflexivity).
  replace (choice_ok _ scheme) with true
    by (destruct Hs as [-> | ->]; reflexivity).
  cbn [andb negb]. rewrite E, Ec. unfold save_raster.
  destruct no_aspect, no_tri; reflexivity.
Qed.

(** The aspect files among the files of such a run. *)
Lemma read_aspect_files (slope : grid fval) (slope_rgb : rgb_array)
  (aspect tri : raster) (aspect_rgb : raster) (no_aspect no_tri : bool) :
  let out :=
    [("slope_degrees.tif"%string, Band slope (-9999))]
    ++ (if no_aspect then []
        else [("aspect_degrees.tif"%string, aspect);
              ("aspect_colorized.tif"%string, aspect_rgb)])
    ++ [("slope_colorized.tif"%string, Bands slope_rgb)]
    ++ (if no_tri then [] else [("tri.tif"%string, tri)]) in
  read_file out "aspect_degrees.tif"
  = (if no_aspect then None else Some aspect)
  /\ read_file out "aspect_colorized.tif"
     = (if no_aspect then None else Some aspect_rgb).
Proof.
  destruct no_aspect, no_tri; split; reflexivity.
Qed.

(** C6: the run with [zevenbergen_thorne] and the run with [horn] write
    the same aspect and the same colorized aspect, whatever the input and
    the other arguments; when the aspect is written it is the one computed
    from the input alone, with the flat sentinel where [compute_aspect]
    puts it. *)
Theorem aspect_ignores_slope_algorithm (scheme : string)
  (no_aspect no_tri : bool) (dtm_file : option (grid fval)) :
  let run algorithm :=
    fst (main (with_algorithm algorithm scheme no_aspect no_tri) dtm_file) in
  read_file (run "zevenbergen_thorne"%string) "aspect_degrees.tif"
  = read_file (run "horn"%string) "aspect_degrees.tif"
  /\ read_file (run "zevenbergen_thorne"%string) "aspect_colorized.tif"
     = read_file (run "horn"%string) "aspect_colorized.tif"
  /\ forall algorithm a,
       read_file (run algorithm) "aspect_degrees.tif" = Some a ->
       exists dtm, dtm_file = Some dtm /\ a = Band (compute_aspect dtm 1) (-1).
Proof.
  cbv zeta.
  destruct (choice_ok ["skitour"; "climbing"]%string scheme) eqn:Hs.
  - apply choice_ok_schemes in Hs.
    destruct dtm_file as [dtm|].
    + destruct (main_files "zevenbergen_thorne" scheme no_aspect no_tri dtm)
        as (s1 & rgb1 & _ & ->); auto.
      destruct (main_files "horn" scheme no_aspect no_tri dtm)
        as (s2 & rgb2 & _ & ->); auto.
      cbn [fst].
      destruct (read_aspect_files s1 rgb1 (Band (compute_aspect dtm 1) (-1))
                  (Band (compute_tri dtm) (-9999))
                  (Bands (colorize_aspect (compute_aspect dtm 1)))
                  no_aspect no_tri) as [-> ->].
      destruct (read_aspect_files s2 rgb2 (Band (compute_aspect dtm 1) (-1))
                  (Band (compute_tri dtm) (-9999))
                  (Bands (colorize_aspect (compute_aspect dtm 1)))
                  no_aspect no_tri) as [-> ->].
      repeat split; auto.
      intros algorithm a Ha. exists dtm; split; auto.
      destruct (choice_ok ["zevenbergen_thorne"; "horn"]%string algorithm)
        eqn:Hc.
      * assert (Hal : algorithm = "zevenbergen_thorne"%string
                      \/ algorithm = "horn"%string).
        { unfold choice_ok in Hc; simpl in Hc. rewrite orb_false_r in Hc.
          apply orb_true_iff in Hc as [H | H];
            apply String.eqb_eq in H; auto. }
        destruct (main_files algorithm scheme no_aspect no_tri dtm)
          as (s & rgb & _ & Hm); auto.
        rewrite Hm in Ha; cbn [fst] in Ha.
        destruct (read_aspect_files s rgb (Band (compute_aspect dtm 1) (-1))
                    (Band (compute_tri dtm) (-9999))
                    (Bands (colorize_aspect (compute_aspect dtm 1)))
                    no_aspect no_tri) as [R1 _].
        rewrite R1 in Ha. destruct no_aspect; [discriminate|].
        now inversion Ha.
      * unfold main, with_algorithm in Ha;
          cbn [slope_algorithm colorize_slope_scheme] in Ha.
        rewrite Hc in Ha. discriminate.
    + repeat split; auto.
      intros algorithm a Ha. unfold main in Ha.
      destruct (negb _) in Ha; discriminate.
  - assert (Hnone : forall algorithm,
               fst (main (with_algorithm algorithm scheme no_aspect no_tri)
                      dtm_file) = []).
    { intros algorithm. unfold main, with_algorithm;
        cbn [slope_algorithm colorize_slope_scheme].
      now rewrite Hs, andb_false_r. }
    rewrite !Hnone. repeat split; auto.
    intros algorithm a Ha. rewrite Hnone in Ha. discriminate.
Qed.

Lemma aspect_ignores_slope_algorithm_witness :
  read_file
    (fst (main (with_algorithm "zevenbergen_thorne" "skitour" false false)
            (Some flat3)))
    "aspect_degrees.tif"
  = read_file
      (fst (main (with_algorithm "horn" "skitour" false false) (Some flat3)))
      "aspect_degrees.tif".
Proof.
  exact (proj1 (aspect_ignores_slope_algorithm "skitour" false false
                  (Some flat3))).
Defined.

(** * Further properties *)

(** ** The range of the slope *)

Lemma atan_nonneg x : 0 <= x -> 0 <= atan x.
Proof.
  intros [H | <-]; [|rewrite atan_0; lra].
  left; rewrite <- atan_0; now apply atan_increasing.
Qed.

Lemma slope_of_range gx gy :
  slope_of gx gy = NaN
  \/ exists s, slope_of gx gy = Fin s /\ 0 <= s < 90.
Proof.
  destruct gx as [|gx]; [left; apply slope_of_nan_l|].
  destruct gy as [|gy]; [left; apply slope_of_nan_r|].
  right; rewrite slope_of_real. eexists; split; [reflexivity|].
  set (m := sqrt (gx * gx + gy * gy)).
  assert (Hm : 0 <= m) by apply sqrt_pos.
  pose proof (atan_nonneg m Hm) as H0.
  destruct (atan_bound m) as [_ H1]. split.
  - replace 0 with (degrees 0) by (unfold degrees; lra).
    now apply degrees_le.
  - replace 90 with (degrees (/ 2 * PI)) by (rewrite degrees_scale; lra).
    apply degrees_lt; lra.
Qed.

(** Every cell of the slope array is NaN or a number of degrees from 0
    to 90, whichever of the two algorithms computes it. *)
Theorem slope_in_range dtm cellsize algorithm slope r c :
  0 < cellsize ->
  compute_slope dtm cellsize algorithm = Ok slope ->
  (r < nrows dtm)%nat -> (c < ncols dtm)%nat ->
  cell NaN slope r c = NaN
  \/ exists s, cell NaN slope r c = Fin s /\ 0 <= s <= 90.
Proof.
  intros _ Hs Hr Hc.
  destruct (compute_slope_ok _ _ _ _ Hs) as (kx & ky & K & _).
  rewrite (cell_compute_slope _ _ _ _ kx ky r c Hs K Hr Hc).
  destruct (slope_of_range (grad dtm kx r c) (grad dtm ky r c))
    as [Hn | (s & E & H0 & H90)]; [now left|].
  right; exists s; split; [assumption | lra].
Qed.

Lemma slope_in_range_witness :
  cell NaN (map2_grid slope_of (convolve ramp_east (horn_kernel_x 1) NaN)
              (convolve ramp_east (horn_kernel_y 1) NaN)) 1 1 = NaN
  \/ exists s,
      cell NaN (map2_grid slope_of (convolve ramp_east (horn_kernel_x 1) NaN)
                  (convolve ramp_east (horn_kernel_y 1) NaN)) 1 1 = Fin s
      /\ 0 <= s <= 90.
Proof.
  apply (slope_in_range ramp_east 1 "horn");
    [lra | reflexivity | in_range | in_range].
Defined.

(** ** Where the NaN cells are *)

Lemma fin_real_of a : a <> NaN -> a = Fin (real_of a).
Proof. destruct a; [congruence | reflexivity]. Qed.

Lemma finite_window g r c :
  finite_grid g -> interior g r c ->
  forall i j, (i < 3)%nat -> (j < 3)%nat ->
              neighbor g NaN r c i j = Fin (real_window g r c i j).
Proof.
  intros Hf Hi i j Li Lj. rewrite neighbor_interior by assumption.
  unfold real_window. apply fin_real_of, Hf; unfold interior in Hi; lia.
Qed.

Lemma border_or_interior {A} (g : grid A) r c :
  (r < nrows g)%nat -> (c < ncols g)%nat ->
  on_border g r c \/ interior g r c.
Proof. unfold on_border, interior; lia. Qed.

Lemma border_not_interior {A} (g : grid A) r c :
  on_border g r c -> ~ interior g r c.
Proof. unfold on_border, interior; lia. Qed.

(** The gradients of the four kernels at an interior cell of an array
    without NaN are real numbers. *)
Lemma finite_gradients g cellsize r c :
  finite_grid g -> interior g r c ->
  (exists x, grad g (zt_kernel_x cellsize) r c = Fin x)
  /\ (exists y, grad g (zt_kernel_y cellsize) r c = Fin y)
  /\ (exists x, grad g (horn_kernel_x cellsize) r c = Fin x)
  /\ (exists y, grad g (horn_kernel_y cellsize) r c = Fin y).
Proof.
  intros Hf Hi. pose proof (finite_window g r c Hf Hi) as Hw.
  rewrite (grad_zt_x _ _ _ _ _ Hw), (grad_zt_y _ _ _ _ _ Hw),
    (grad_horn_x _ _ _ _ _ Hw), (grad_horn_y _ _ _ _ _ Hw).
  repeat split; eexists; reflexivity.
Qed.

Lemma bounded_finite bound g : bounded_grid bound g -> finite_grid g.
Proof.
  intros Hb r c Hr Hc. destruct (Hb r c Hr Hc) as (x & -> & _). discriminate.
Qed.

Lemma moderate_cellsize cellsize :
  / 2 ^ 20 <= cellsize <= 2 ^ 20 -> 0 < cellsize < 2 ^ 49.
Proof.
  intros [Hlo Hhi]. split.
  - apply Rlt_le_trans with (/ 2 ^ 20); auto.
    apply Rinv_0_lt_compat, pow_lt; lra.
  - apply Rle_lt_trans with (2 ^ 20); auto.
    apply Rlt_pow; [lra | lia].
Qed.

(** For elevations of magnitude at most 2^40 and a cell size between
    2^-20 and 2^20 (no NaN in the input, no overflow in float64), the NaN
    cells of the slope are exactly the cells of the border ring, under
    both algorithms. *)
Theorem slope_nan_iff_border dtm cellsize algorithm slope r c :
  / 2 ^ 20 <= cellsize <= 2 ^ 20 -> bounded_grid (2 ^ 40) dtm ->
  compute_slope dtm cellsize algorithm = Ok slope ->
  (r < nrows dtm)%nat -> (c < ncols dtm)%nat ->
  cell NaN slope r c = NaN <-> on_border dtm r c.
Proof.
  intros Hcs%moderate_cellsize Hf%bounded_finite Hs Hr Hc. split.
  - intros Hn. destruct (border_or_interior dtm r c Hr Hc) as [|Hi]; auto.
    exfalso.
    destruct (finite_gradients dtm cellsize r c Hf Hi)
      as ((zx & Zx) & (zy & Zy) & (hx & Hx) & (hy & Hy)).
    destruct (compute_slope_ok _ _ _ _ Hs) as (kx & ky & K & _).
    rewrite (cell_compute_slope _ _ _ _ kx ky r c Hs K Hr Hc) in Hn.
    apply slope_kernels_cases in K as [(_ & -> & ->) | (_ & -> & ->)].
    + rewrite Zx, Zy, slope_of_real in Hn; discriminate.
    + rewrite Hx, Hy, slope_of_real in Hn; discriminate.
  - intros Hb. now apply (slope_border_nan dtm cellsize algorithm).
Qed.

Lemma unit_cellsize_moderate : / 2 ^ 20 <= 1 <= 2 ^ 20.
Proof.
  assert (H : 1 <= 2 ^ 20) by (apply pow_R1_Rle; lra). split; auto.
  rewrite <- Rinv_1. apply Rinv_le_contravar; lra.
Qed.

Lemma ramp_east_bounded : bounded_grid (2 ^ 40) ramp_east.
Proof.
  assert (H : 1 <= 2 ^ 40) by (apply pow_R1_Rle; lra).
  assert (H2 : 2 <= 2 ^ 40).
  { replace (2 ^ 40) with (2 * 2 ^ 39) by (simpl; ring).
    assert (1 <= 2 ^ 39) by (apply pow_R1_Rle; lra). lra. }
  intros r c Hr Hc.
  destruct r as [|[|[|r]]]; [| | |vm_compute in Hr; lia];
    (destruct c as [|[|[|c]]]; [| | |vm_compute in Hc; lia]);
    eexists; (split; [reflexivity|]);
    rewrite Rabs_pos_eq; lra.
Qed.

Lemma slope_nan_iff_border_witness :
  cell NaN (map2_grid slope_of (convolve ramp_east (zt_kernel_x 1) NaN)
              (convolve ramp_east (zt_kernel_y 1) NaN)) 0 2 = NaN
  <-> on_border ramp_east 0 2.
Proof.
  apply (slope_nan_iff_border ramp_east 1 "zevenbergen_thorne");
    [apply unit_cellsize_moderate | apply ramp_east_bounded | reflexivity
    | in_range | in_range].
Defined.

(** For elevations of magnitude at most 2^40 and a cell size between
    2^-20 and 2^20, the NaN cells of the aspect are exactly the cells of
    the border ring; every other cell is the flat sentinel -1 or a
    direction in [0, 360). *)
Theorem aspect_nan_iff_border dtm cellsize r c :
  / 2 ^ 20 <= cellsize <= 2 ^ 20 -> bounded_grid (2 ^ 40) dtm ->
  (r < nrows dtm)%nat -> (c < ncols dtm)%nat ->
  (cell NaN (compute_aspect dtm cellsize) r c = NaN <-> on_border dtm r c)
  /\ (interior dtm r c ->
      cell NaN (compute_aspect dtm cellsize) r c = Fin (-1)
      \/ exists a, cell NaN (compute_aspect dtm cellsize) r c = Fin a
                   /\ 0 <= a < 360).
Proof.
  intros Hcs%moderate_cellsize Hf%bounded_finite Hr Hc.
  assert (Hint : interior dtm r c ->
                 cell NaN (compute_aspect dtm cellsize) r c = Fin (-1)
                 \/ exists a, cell NaN (compute_aspect dtm cellsize) r c = Fin a
                              /\ 0 <= a < 360).
  { intros Hi.
    destruct (finite_gradients dtm cellsize r c Hf Hi)
      as ((zx & Zx) & (zy & Zy) & _).
    rewrite cell_compute_aspect by assumption. rewrite Zx, Zy.
    destruct (where_flat_cases (Fin zx) (Fin zy)) as (Hcases & _ & Hnan).
    cbv zeta in Hcases, Hnan.
    destruct Hcases as [Hn | [Hm | Ha]]; auto.
    apply Hnan in Hn. rewrite slope_of_real in Hn; discriminate. }
  split; [split|assumption].
  - intros Hn. destruct (border_or_interior dtm r c Hr Hc) as [|Hi]; auto.
    exfalso. destruct (Hint Hi) as [E | (a & E & _)];
      rewrite E in Hn; discriminate.
  - intros Hb. now apply aspect_border_nan.
Qed.

Lemma aspect_nan_iff_border_witness :
  (cell NaN (compute_aspect ramp_east 1) 1 1 = NaN <-> on_border ramp_east 1 1)
  /\ (interior ramp_east 1 1 ->
      cell NaN (compute_aspect ramp_east 1) 1 1 = Fin (-1)
      \/ exists a, cell NaN (compute_aspect ramp_east 1) 1 1 = Fin a
                   /\ 0 <= a < 360).
Proof.
  apply (aspect_nan_iff_border ramp_east 1 1 1);
    [apply unit_cellsize_moderate | apply ramp_east_bounded
    | in_range | in_range].
Defined.

(** ** Ruggedness: sign and flat terrain *)

Lemma fsqrt_range a :
  fsqrt a = NaN \/ exists x, fsqrt a = Fin x /\ 0 <= x.
Proof.
  destruct a as [|x]; simpl; auto.
  destruct (Rlt_dec x 0); auto.
  right; eexists; split; [reflexivity | apply sqrt_pos].
Qed.

(** Every cell of the ruggedness array is NaN or a non-negative number. *)
Theorem ruggedness_nonnegative (dtm : grid fval) r c :
  (r < nrows dtm)%nat -> (c < ncols dtm)%nat ->
  cell NaN (compute_tri dtm) r c = NaN
  \/ exists x, cell NaN (compute_tri dtm) r c = Fin x /\ 0 <= x.
Proof.
  intros Hr Hc. destruct (compute_tri_cells dtm) as [_ C]. rewrite C.
  destruct (_ && _)%bool.
  - unfold tri_value. apply fsqrt_range.
  - rewrite cell_tabulate by assumption.
    right; exists 0; split; [reflexivity | lra].
Qed.

Lemma ruggedness_nonnegative_witness :
  cell NaN (compute_tri ramp_east) 1 1 = NaN
  \/ exists x, cell NaN (compute_tri ramp_east) 1 1 = Fin x /\ 0 <= x.
Proof.
  apply (ruggedness_nonnegative ramp_east 1 1); in_range.
Defined.

Lemma tri_value_flat v g r c :
  flat_grid v g -> interior g r c -> tri_value g r c = Fin 0.
Proof.
  intros Hf (R1 & R2 & C1 & C2). unfold tri_value.
  rewrite !Hf by lia. unfold fmean, fsum; simpl.
  match goal with
  | |- context [Rlt_dec ?x 0] =>
      replace x with 0 by (unfold Rdiv; ring)
  end.
  destruct (Rlt_dec 0 0); [lra|]. now rewrite sqrt_0.
Qed.

(** The ruggedness of a perfectly flat array is 0 at every cell. *)
Theorem ruggedness_flat (dtm : grid fval) v r c :
  flat_grid v dtm -> (r < nrows dtm)%nat -> (c < ncols dtm)%nat ->
  cell NaN (compute_tri dtm) r c = Fin 0.
Proof.
  intros Hf Hr Hc.
  destruct (border_or_interior dtm r c Hr Hc) as [Hb | Hi].
  - now apply ruggedness_cells.
  - destruct (ruggedness_cells dtm r c) as [Hin _].
    rewrite Hin by assumption.
    rewrite <- tri_value_spec by (unfold interior in Hi; lia).
    now apply (tri_value_flat v).
Qed.

Lemma ruggedness_flat_witness : cell NaN (compute_tri flat3) 1 1 = Fin 0.
Proof.
  apply (ruggedness_flat flat3 5 1 1); [apply flat3_flat | in_range | in_range].
Defined.

(** ** The colour of a slope value *)

Lemma pixel_climbing slope_array r c :
  rect (nrows slope_array) (ncols slope_array) slope_array ->
  (r < nrows slope_array)%nat -> (c < ncols slope_array)%nat ->
  exists rgb,
    colorize_slope slope_array "climbing" = Ok rgb
    /\ pixel rgb r c = climbing_color (cell NaN slope_array r c).
Proof.
  intros Rs Hr Hc. rewrite colorize_slope_climbing.
  eexists; split; [reflexivity|].
  edestruct paint_layers_spec as [_ P];
    [ | apply rgb_shape_zeros3 | rewrite P by eassumption ].
  - repeat (apply Forall_cons; [now apply rect_bin_mask|]). apply Forall_nil.
  - rewrite pixel_zeros3 by assumption. cbn [fold_left fst snd].
    rewrite !(cell_bin_mask (nrows slope_array) (ncols slope_array))
      by assumption.
    reflexivity.
Qed.

Ltac decide_bins :=
  unfold between, fge, flt; decide_reals; reflexivity.

(** The [skitour] scheme paints a slope in [0, 20) green, in [20, 45)
    yellow, in [45, 90) red, and leaves every other cell black: a
    negative value, 90 and above, and NaN. *)
Theorem skitour_bins slope_array r c :
  rect (nrows slope_array) (ncols slope_array) slope_array ->
  (r < nrows slope_array)%nat -> (c < ncols slope_array)%nat ->
  exists rgb,
    colorize_slope slope_array "skitour" = Ok rgb /\
    (cell NaN slope_array r c = NaN -> pixel rgb r c = black) /\
    forall v, cell NaN slope_array r c = Fin v ->
      (0 <= v < 20 -> pixel rgb r c = green)
      /\ (20 <= v < 45 -> pixel rgb r c = yellow)
      /\ (45 <= v < 90 -> pixel rgb r c = red)
      /\ (v < 0 \/ 90 <= v -> pixel rgb r c = black).
Proof.
  intros Rs Hr Hc.
  destruct (pixel_skitour slope_array r c Rs Hr Hc) as (rgb & E & P).
  exists rgb; split; [assumption|]. rewrite P. split.
  - intros ->. reflexivity.
  - intros v ->. unfold skitour_color.
    repeat split; intros H; decide_bins.
Qed.

Lemma skitour_bins_witness :
  exists rgb,
    colorize_slope slopes_2x2 "skitour" = Ok rgb /\
    (cell NaN slopes_2x2 1 0 = NaN -> pixel rgb 1 0 = black) /\
    forall v, cell NaN slopes_2x2 1 0 = Fin v ->
      (0 <= v < 20 -> pixel rgb 1 0 = green)
      /\ (20 <= v < 45 -> pixel rgb 1 0 = yellow)
      /\ (45 <= v < 90 -> pixel rgb 1 0 = red)
      /\ (v < 0 \/ 90 <= v -> pixel rgb 1 0 = black).
Proof.
  apply (skitour_bins slopes_2x2 1 0); [ | in_range | in_range].
  split; [reflexivity | repeat constructor].
Defined.

(** The [climbing] scheme paints a slope in [0, 20) blue, in [20, 35)
    green, in [35, 50) yellow, in [50, 90) red, and leaves every other
    cell black. *)
Theorem climbing_bins slope_array r c :
  rect (nrows slope_array) (ncols slope_array) slope_array ->
  (r < nrows slope_array)%nat -> (c < ncols slope_array)%nat ->
  exists rgb,
    colorize_slope slope_array "climbing" = Ok rgb /\
    (cell NaN slope_array r c = NaN -> pixel rgb r c = black) /\
    forall v, cell NaN slope_array r c = Fin v ->
      (0 <= v < 20 -> pixel rgb r c = blue)
      /\ (20 <= v < 35 -> pixel rgb r c = lime)
      /\ (35 <= v < 50 -> pixel rgb r c = yellow)
      /\ (50 <= v < 90 -> pixel rgb r c = red)
      /\ (v < 0 \/ 90 <= v -> pixel rgb r c = black).
Proof.
  intros Rs Hr Hc.
  destruct (pixel_climbing slope_array r c Rs Hr Hc) as (rgb & E & P).
  exists rgb; split; [assumption|]. rewrite P. split.
  - intros ->. reflexivity.
  - intros v ->. unfold climbing_color.
    repeat split; intros H; decide_bins.
Qed.

Lemma climbing_bins_witness :
  exists rgb,
    colorize_slope slopes_2x2 "climbing" = Ok rgb /\
    (cell NaN slopes_2x2 1 0 = NaN -> pixel rgb 1 0 = black) /\
    forall v, cell NaN slopes_2x2 1 0 = Fin v ->
      (0 <= v < 20 -> pixel rgb 1 0 = blue)
      /\ (20 <= v < 35 -> pixel rgb 1 0 = lime)
      /\ (35 <= v < 50 -> pixel rgb 1 0 = yellow)
      /\ (50 <= v < 90 -> pixel rgb 1 0 = red)
      /\ (v < 0 \/ 90 <= v -> pixel rgb 1 0 = black).
Proof.
  apply (climbing_bins slopes_2x2 1 0); [ | in_range | in_range].
  split; [reflexivity | repeat constructor].
Defined.

(** When a computed slope is colorized, a pixel is black exactly where the
    slope is NaN or 90: every other value the slope can take falls in a
    bin of either scheme, and 90 lies above the last bin [.., 90). *)
Theorem slope_color_black_iff dtm cellsize algorithm scheme r c :
  0 < cellsize ->
  algorithm = "zevenbergen_thorne"%string \/ algorithm = "horn"%string ->
  scheme = "skitour"%string \/ scheme = "climbing"%string ->
  (r < nrows dtm)%nat -> (c < ncols dtm)%nat ->
  exists slope rgb,
    compute_slope dtm cellsize algorithm = Ok slope
    /\ colorize_slope slope scheme = Ok rgb
    /\ (pixel rgb r c = black
        <-> cell NaN slope r c = NaN \/ cell NaN slope r c = Fin 90).
Proof.
  intros Hcs Ha Hsch Hr Hc.
  destruct (compute_slope_returns dtm cellsize algorithm Ha) as (slope & Hs).
  pose proof (rect_compute_slope _ _ _ _ Hs) as Rslope.
  destruct (same_shape_dims dtm slope Rslope) as [En Ec].
  pose proof (rect_dims _ _ _ Rslope) as Rs.
  assert (Hr' : (r < nrows slope)%nat) by lia.
  assert (Hc' : (c < ncols slope)%nat) by lia.
  destruct (compute_slope_ok _ _ _ _ Hs) as (kx & ky & K & _).
  pose proof (cell_compute_slope _ _ _ _ kx ky r c Hs K Hr Hc) as Hcell.
  pose proof (slope_of_range (grad dtm kx r c) (grad dtm ky r c)) as Hrange.
  rewrite <- Hcell in Hrange.
  exists slope. destruct Hsch as [-> | ->].
  - destruct (pixel_skitour slope r c Rs Hr' Hc') as (rgb & E & P).
    exists rgb; repeat split; auto; rewrite P.
    + destruct Hrange as [Hn | (s & Hv & Hs0 & Hs90)]; auto.
      rewrite Hv. unfold skitour_color, between, fge, flt.
      decide_reals; discriminate.
    + intros [-> | ->]; [reflexivity|].
      unfold skitour_color. decide_bins.
  - destruct (pixel_climbing slope r c Rs Hr' Hc') as (rgb & E & P).
    exists rgb; repeat split; auto; rewrite P.
    + destruct Hrange as [Hn | (s & Hv & Hs0 & Hs90)]; auto.
      rewrite Hv. unfold climbing_color, between, fge, flt.
      decide_reals; discriminate.
    + intros [-> | ->]; [reflexivity|].
      unfold climbing_color. decide_bins.
Qed.

Lemma slope_color_black_iff_witness :
  exists slope rgb,
    compute_slope ramp_east 1 "horn" = Ok slope
    /\ colorize_slope slope "climbing" = Ok rgb
    /\ (pixel rgb 1 1 = black
        <-> cell NaN slope 1 1 = NaN \/ cell NaN slope 1 1 = Fin 90).
Proof.
  apply (slope_color_black_iff ramp_east 1 "horn" "climbing" 1 1);
    [lra | right; reflexivity | right; reflexivity | in_range | in_range].
Defined.

(** ** The colour of an aspect value *)

Lemma pixel_aspect aspect_array r c :
  rect (nrows aspect_array) (ncols aspect_array) aspect_array ->
  (r < nrows aspect_array)%nat -> (c < ncols aspect_array)%nat ->
  pixel (colorize_aspect aspect_array) r c
  = aspect_color (cell NaN aspect_array r c).
Proof.
  intros Ra Hr Hc. rewrite colorize_aspect_layers.
  edestruct paint_layers_spec as [_ P];
    [ | apply rgb_shape_zeros3 | rewrite P by eassumption ].
  - apply Forall_app; split.
    + apply Forall_forall; intros l Hl.
      apply in_map_iff in Hl as (d & <- & _). now apply rect_bin_mask.
    + apply Forall_cons; [now apply rect_map_grid | apply Forall_nil].
  - rewrite pixel_zeros3 by assumption.
    cbn [directions map app fold_left fst snd sector_layer].
    rewrite !(cell_bin_mask (nrows aspect_array) (ncols aspect_array))
      by assumption.
    rewrite (cell_map_grid (nrows aspect_array) (ncols aspect_array)
               _ aspect_array false NaN) by assumption.
    reflexivity.
Qed.

Ltac decide_sectors :=
  unfold aspect_color, between, fge, flt, feq;
  repeat match goal with
    | |- context [Rlt_dec ?a ?b] => destruct (Rlt_dec a b); try lra
    | |- context [Rle_dec ?a ?b] => destruct (Rle_dec a b); try lra
    | |- context [Req_dec_T ?a ?b] => destruct (Req_dec_T a b); try lra
    end;
  reflexivity.

(** [colorize_aspect] paints the flat sentinel -1 gray, each of the eight
    45-degree compass sectors its colour (both [0, 22.5) and [337.5, 360)
    red for north), and leaves every other cell black: NaN, a negative
    value other than -1, and 360 and above. *)
Theorem aspect_sectors aspect_array r c :
  rect (nrows aspect_array) (ncols aspect_array) aspect_array ->
  (r < nrows aspect_array)%nat -> (c < ncols aspect_array)%nat ->
  let p := pixel (colorize_aspect aspect_array) r c in
  (cell NaN aspect_array r c = NaN -> p = black) /\
  (cell NaN aspect_array r c = Fin (-1) -> p = gray) /\
  forall v, cell NaN aspect_array r c = Fin v ->
    (0 <= v < 22.5 \/ 337.5 <= v < 360 -> p = (255, 0, 0)%Z)
    /\ (22.5 <= v < 67.5 -> p = (255, 255, 0)%Z)
    /\ (67.5 <= v < 112.5 -> p = (0, 255, 0)%Z)
    /\ (112.5 <= v < 157.5 -> p = (0, 255, 255)%Z)
    /\ (157.5 <= v < 202.5 -> p = (0, 0, 255)%Z)
    /\ (202.5 <= v < 247.5 -> p = (255, 0, 255)%Z)
    /\ (247.5 <= v < 292.5 -> p = (255, 255, 255)%Z)
    /\ (292.5 <= v < 337.5 -> p = (255, 165, 0)%Z)
    /\ (v < 0 /\ v <> -1 \/ 360 <= v -> p = black).
Proof.
  intros Ra Hr Hc p; subst p. rewrite pixel_aspect by assumption.
  split; [|split].
  - intros ->. reflexivity.
  - intros ->. decide_sectors.
  - intros v ->. repeat split; intros H; decide_sectors.
Qed.

Lemma aspect_sectors_witness :
  let p := pixel (colorize_aspect aspects_2x2) 1 0 in
  (cell NaN aspects_2x2 1 0 = NaN -> p = black) /\
  (cell NaN aspects_2x2 1 0 = Fin (-1) -> p = gray) /\
  forall v, cell NaN aspects_2x2 1 0 = Fin v ->
    (0 <= v < 22.5 \/ 337.5 <= v < 360 -> p = (255, 0, 0)%Z)
    /\ (22.5 <= v < 67.5 -> p = (255, 255, 0)%Z)
    /\ (67.5 <= v < 112.5 -> p = (0, 255, 0)%Z)
    /\ (112.5 <= v < 157.5 -> p = (0, 255, 255)%Z)
    /\ (157.5 <= v < 202.5 -> p = (0, 0, 255)%Z)
    /\ (202.5 <= v < 247.5 -> p = (255, 0, 255)%Z)
    /\ (247.5 <= v < 292.5 -> p = (255, 255, 255)%Z)
    /\ (292.5 <= v < 337.5 -> p = (255, 165, 0)%Z)
    /\ (v < 0 /\ v <> -1 \/ 360 <= v -> p = black).
Proof.
  apply (aspect_sectors aspects_2x2 1 0); [ | in_range | in_range].
  split; [reflexivity | repeat constructor].
Defined.

(** In the colorized aspect of a computed aspect a pixel is black exactly
    where the aspect is NaN and gray exactly where it is the flat sentinel
    -1; every other pixel carries the colour of its compass sector. *)
Theorem aspect_color_of_computed dtm cellsize r c :
  0 < cellsize -> (r < nrows dtm)%nat -> (c < ncols dtm)%nat ->
  let a := cell NaN (compute_aspect dtm cellsize) r c in
  let p := pixel (colorize_aspect (compute_aspect dtm cellsize)) r c in
  (p = black <-> a = NaN) /\ (p = gray <-> a = Fin (-1)).
Proof.
  intros _ Hr Hc a p; subst a p.
  pose proof (rect_compute_aspect dtm cellsize) as Raspect.
  destruct (same_shape_dims dtm _ Raspect) as [En Ec].
  rewrite pixel_aspect
    by (try apply (rect_dims _ _ _ Raspect); lia).
  rewrite cell_compute_aspect by assumption.
  destruct (where_flat_cases (grad dtm (zt_kernel_x cellsize) r c)
              (grad dtm (zt_kernel_y cellsize) r c)) as (Hcases & _ & _).
  cbv zeta in Hcases.
  destruct Hcases as [-> | [-> | (x & -> & Hx0 & Hx360)]].
  - split; split; intros H; try reflexivity; discriminate.
  - assert (E : aspect_color (Fin (-1)) = gray) by decide_sectors.
    rewrite E. split; split; intros H; try reflexivity; discriminate.
  - assert (Hb : aspect_color (Fin x) <> black /\ aspect_color (Fin x) <> gray).
    { unfold aspect_color, between, fge, flt, feq.
      repeat match goal with
        | |- context [Rlt_dec ?a ?b] => destruct (Rlt_dec a b); try lra
        | |- context [Rle_dec ?a ?b] => destruct (Rle_dec a b); try lra
        | |- context [Req_dec_T ?a ?b] => destruct (Req_dec_T a b); try lra
        end; split; discriminate. }
    destruct Hb as [Hb Hg].
    split; split; intros H; try contradiction; try discriminate.
    inversion H; lra.
Qed.

Lemma aspect_color_of_computed_witness :
  let a := cell NaN (compute_aspect ramp_east 1) 1 1 in
  let p := pixel (colorize_aspect (compute_aspect ramp_east 1)) 1 1 in
  (p = black <-> a = NaN) /\ (p = gray <-> a = Fin (-1)).
Proof.
  apply (aspect_color_of_computed ramp_east 1 1 1); [lra | in_range | in_range].
Defined.

(** ** The runs of main *)

Lemma choice_ok_algorithms algorithm :
  choice_ok ["zevenbergen_thorne"; "horn"]%string algorithm = true ->
  algorithm = "zevenbergen_thorne"%string \/ algorithm = "horn"%string.
Proof.
  unfold choice_ok; simpl. rewrite orb_false_r.
  intros H; apply orb_true_iff in H as [H | H];
    apply String.eqb_eq in H; auto.
Qed.

Lemma with_algorithm_eta a :
  a = with_algorithm (slope_algorithm a) (colorize_slope_scheme a)
        (skip_aspect a) (skip_tri a).
Proof. destruct a; reflexivity. Qed.

(** The files of a run with valid names and an input file, with the
    slope and its colours named. *)
Lemma main_products algorithm scheme no_aspect no_tri dtm :
  algorithm = "zevenbergen_thorne"%string \/ algorithm = "horn"%string ->
  scheme = "skitour"%string \/ scheme = "climbing"%string ->
  exists slope slope_rgb,
    compute_slope dtm 1 algorithm = Ok slope
    /\ colorize_slope slope scheme = Ok slope_rgb
    /\ main (with_algorithm algorithm scheme no_aspect no_tri) (Some dtm)
       = ([("slope_degrees.tif"%string, Band slope (-9999))]
          ++ (if no_aspect then []
              else [("aspect_degrees.tif"%string,
                     Band (compute_aspect dtm 1) (-1));
                    ("aspect_colorized.tif"%string,
                     Bands (colorize_aspect (compute_aspect dtm 1)))])
          ++ [("slope_colorized.tif"%string, Bands slope_rgb)]
          ++ (if no_tri then []
              else [("tri.tif"%string, Band (compute_tri dtm) (-9999))]),
          Done).
Proof.
  intros Ha Hs.
  destruct (compute_slope_returns dtm 1 algorithm Ha) as (slope & E).
  pose proof (rect_compute_slope _ _ _ _ E) as Rslope.
  destruct (colorize_slope_returns slope scheme Hs (rect_dims _ _ _ Rslope))
    as (rgb & Ec & _).
  exists slope, rgb; split; [assumption|]; split; [assumption|].
  unfold main, with_algorithm; cbn [slope_algorithm colorize_slope_scheme
                                    skip_aspect skip_tri].
  replace (choice_ok _ algorithm) with true
    by (destruct Ha as [-> | ->]; reflexivity).
  replace (choice_ok _ scheme) with true
    by (destruct Hs as [-> | ->]; reflexivity).
  cbn [andb negb]. rewrite E, Ec. unfold save_raster.
  destruct no_aspect, no_tri; reflexivity.
Qed.

Lemma main_cases (a : arguments) (dtm_file : option (grid fval)) :
  (valid_names a = false /\ main a dtm_file = ([], SystemExit 2))
  \/ (valid_names a = true /\ dtm_file = None
      /\ main a dtm_file = ([], SystemExit 1))
  \/ (valid_names a = true /\ exists dtm out,
        dtm_file = Some dtm /\ main a dtm_file = (out, Done)
        /\ read_file out "slope_degrees.tif" <> None
        /\ read_file out "slope_colorized.tif" <> None).
Proof.
  destruct (valid_names a) eqn:V.
  - right. unfold valid_names in V. apply andb_true_iff in V as [Va Vs].
    apply choice_ok_algorithms in Va. apply choice_ok_schemes in Vs.
    destruct dtm_file as [dtm|].
    + right; split; auto.
      destruct (main_products _ _ (skip_aspect a) (skip_tri a) dtm Va Vs)
        as (slope & rgb & _ & _ & Hm).
      rewrite <- with_algorithm_eta in Hm.
      exists dtm; eexists; split; [reflexivity|]; split; [exact Hm|].
      destruct (skip_aspect a), (skip_tri a); split; discriminate.
    + left; repeat split; auto.
      unfold main.
      replace (choice_ok _ (slope_algorithm a)) with true
        by (destruct Va as [-> | ->]; reflexivity).
      replace (choice_ok _ (colorize_slope_scheme a)) with true
        by (destruct Vs as [-> | ->]; reflexivity).
      reflexivity.
  - left; split; auto. unfold main. unfold valid_names in V.
    now rewrite V.
Qed.

(** A name that is not among the choices never reaches [compute_slope]
    or [colorize_slope]: the run exits with status 2 before the input is
    looked at and writes no file, so the ValueError of the two functions
    is not the outcome of any run.  With valid names and a missing input
    file the run exits with status 1 and writes no file. *)
Theorem main_guards (a : arguments) (dtm_file : option (grid fval)) :
  (valid_names a = false -> main a dtm_file = ([], SystemExit 2))
  /\ (valid_names a = true -> dtm_file = None ->
      main a dtm_file = ([], SystemExit 1))
  /\ (forall name,
        snd (main a dtm_file) <> Raised ("Unknown algorithm: " ++ name)%string).
Proof.
  destruct (main_cases a dtm_file)
    as [(V & E) | [(V & N & E) | (V & dtm & out & N & E & _)]];
    rewrite E, V; repeat split; try discriminate; auto.
  - intros _ H; subst; discriminate.
Qed.

Lemma main_guards_witness :
  main invalid_arguments (Some flat3) = ([], SystemExit 2).
Proof.
  apply (proj1 (main_guards invalid_arguments (Some flat3))). reflexivity.
Defined.

(** What a normal run leaves in the output directory: the slope with
    nodata -9999 and its colours always; the aspect with nodata -1 and its
    colours unless [--skip-aspect]; the ruggedness unless [--skip-tri];
    nothing else. *)
Theorem main_written_files algorithm scheme no_aspect no_tri dtm :
  algorithm = "zevenbergen_thorne"%string \/ algorithm = "horn"%string ->
  scheme = "skitour"%string \/ scheme = "climbing"%string ->
  exists slope slope_rgb,
    compute_slope dtm 1 algorithm = Ok slope
    /\ colorize_slope slope scheme = Ok slope_rgb
    /\ let out :=
         fst (main (with_algorithm algorithm scheme no_aspect no_tri)
                (Some dtm)) in
       read_file out "slope_degrees.tif" = Some (Band slope (-9999))
       /\ read_file out "slope_colorized.tif" = Some (Bands slope_rgb)
       /\ read_file out "aspect_degrees.tif"
          = (if no_aspect then None
             else Some (Band (compute_aspect dtm 1) (-1)))
       /\ read_file out "aspect_colorized.tif"
          = (if no_aspect then None
             else Some (Bands (colorize_aspect (compute_aspect dtm 1))))
       /\ read_file out "tri.tif"
          = (if no_tri then None
             else Some (Band (compute_tri dtm) (-9999)))
       /\ List.length out
          = (2 + (if no_aspect then 0 else 2) + (if no_tri then 0 else 1))%nat.
Proof.
  intros Ha Hs.
  destruct (main_products algorithm scheme no_aspect no_tri dtm Ha Hs)
    as (slope & rgb & E & Ec & Hm).
  exists slope, rgb; split; [assumption|]; split; [assumption|].
  rewrite Hm; cbn [fst].
  generalize (compute_aspect dtm 1); intros aspect.
  generalize (colorize_aspect aspect); intros aspect_rgb.
  generalize (compute_tri dtm); intros tri.
  destruct no_aspect, no_tri; repeat split; reflexivity.
Qed.

Lemma main_written_files_witness :
  exists slope slope_rgb,
    compute_slope flat3 1 "horn" = Ok slope
    /\ colorize_slope slope "skitour" = Ok slope_rgb
    /\ let out :=
         fst (main (with_algorithm "horn" "skitour" true false)
                (Some flat3)) in
       read_file out "slope_degrees.tif" = Some (Band slope (-9999))
       /\ read_file out "slope_colorized.tif" = Some (Bands slope_rgb)
       /\ read_file out "aspect_degrees.tif"
          = (if true then None
             else Some (Band (compute_aspect flat3 1) (-1)))
       /\ read_file out "aspect_colorized.tif"
          = (if true then None
             else Some (Bands (colorize_aspect (compute_aspect flat3 1))))
       /\ read_file out "tri.tif"
          = (if false then None
             else Some (Band (compute_tri flat3) (-9999)))
       /\ List.length out
          = (2 + (if true then 0 else 2) + (if false then 0 else 1))%nat.
Proof.
  apply (main_written_files "horn" "skitour" true false flat3);
    [right | left]; reflexivity.
Defined.

(** ** The bytes of the colour arrays *)

Ltac split_colors :=
  repeat match goal with
    | |- context [if ?b then _ else _] => destruct b
    end;
  unfold byte_color, gray, black, red, yellow, green, blue, lime; lia.

(** Every channel of every pixel of the colorized slope and of the
    colorized aspect lies in 0..255, so the uint8 bands never wrap. *)
Theorem colors_fit_bytes (a : grid fval) (scheme : string) r c :
  rect (nrows a) (ncols a) a ->
  scheme = "skitour"%string \/ scheme = "climbing"%string ->
  (r < nrows a)%nat -> (c < ncols a)%nat ->
  byte_color (pixel (colorize_aspect a) r c)
  /\ exists rgb, colorize_slope a scheme = Ok rgb
                 /\ byte_color (pixel rgb r c).
Proof.
  intros Ra Hs Hr Hc. split.
  - rewrite pixel_aspect by assumption. unfold aspect_color. split_colors.
  - destruct Hs as [-> | ->].
    + destruct (pixel_skitour a r c Ra Hr Hc) as (rgb & E & P).
      exists rgb; split; auto. rewrite P. unfold skitour_color. split_colors.
    + destruct (pixel_climbing a r c Ra Hr Hc) as (rgb & E & P).
      exists rgb; split; auto. rewrite P. unfold climbing_color. split_colors.
Qed.

Lemma colors_fit_bytes_witness :
  byte_color (pixel (colorize_aspect aspects_2x2) 0 1)
  /\ exists rgb, colorize_slope aspects_2x2 "climbing" = Ok rgb
                 /\ byte_color (pixel rgb 0 1).
Proof.
  apply (colors_fit_bytes aspects_2x2 "climbing" 0 1);
    [ | right; reflexivity | in_range | in_range].
  split; [reflexivity | repeat constructor].
Defined.

(** ** Ruggedness of bounded elevations *)

Lemma tri_value_real (center n1 n2 n3 n4 n5 n6 n7 n8 : R) :
  exists x,
    fsqrt (fmean (map (fun n => fsqr (fsub (Fin center) n))
                    [Fin n1; Fin n2; Fin n3; Fin n4;
                     Fin n5; Fin n6; Fin n7; Fin n8])) = Fin x
    /\ 0 <= x.
Proof.
  unfold fmean, fsum. cbn [map fold_left List.length].
  cbn [fsqr fsub fadd lift1 lift2 fsqrt].
  match goal with
  | |- context [Rlt_dec ?s 0] => destruct (Rlt_dec s 0) as [Hneg | _]
  end.
  - exfalso. revert Hneg.
    match goal with
    | |- ?s / ?d < 0 -> False =>
        assert (Hs : 0 <= s);
        [ pose proof (Rle_0_sqr (center - n1));
          pose proof (Rle_0_sqr (center - n2));
          pose proof (Rle_0_sqr (center - n3));
          pose proof (Rle_0_sqr (center - n4));
          pose proof (Rle_0_sqr (center - n5));
          pose proof (Rle_0_sqr (center - n6));
          pose proof (Rle_0_sqr (center - n7));
          pose proof (Rle_0_sqr (center - n8));
          unfold Rsqr in *; lra
        | assert (Hd : 0 < d) by (apply lt_0_INR; lia);
          intros Hneg;
          assert (0 <= s / d)
            by (apply Rmult_le_pos; [assumption
                                    | now apply Rlt_le, Rinv_0_lt_compat]);
          lra ]
    end.
  - eexists; split; [reflexivity | apply sqrt_pos].
Qed.

(** For elevations of magnitude at most 2^40 (no NaN in the input, no
    overflow in float64) every cell of the ruggedness is a non-negative
    real number. *)
Theorem ruggedness_finite (dtm : grid fval) r c :
  bounded_grid (2 ^ 40) dtm -> (r < nrows dtm)%nat -> (c < ncols dtm)%nat ->
  exists x, cell NaN (compute_tri dtm) r c = Fin x /\ 0 <= x.
Proof.
  intros Hf%bounded_finite Hr Hc.
  destruct (border_or_interior dtm r c Hr Hc) as [Hb | Hi].
  - exists 0; split; [now apply ruggedness_cells | lra].
  - destruct (ruggedness_cells dtm r c) as [Hin _].
    rewrite Hin by assumption.
    rewrite <- tri_value_spec by (unfold interior in Hi; lia).
    unfold tri_value. unfold interior in Hi.
    rewrite (fin_real_of (cell NaN dtm r c)) by (apply Hf; lia).
    rewrite (fin_real_of (cell NaN dtm (r - 1) (c - 1))) by (apply Hf; lia).
    rewrite (fin_real_of (cell NaN dtm (r - 1) c)) by (apply Hf; lia).
    rewrite (fin_real_of (cell NaN dtm (r - 1) (c + 1))) by (apply Hf; lia).
    rewrite (fin_real_of (cell NaN dtm r (c - 1))) by (apply Hf; lia).
    rewrite (fin_real_of (cell NaN dtm r (c + 1))) by (apply Hf; lia).
    rewrite (fin_real_of (cell NaN dtm (r + 1) (c - 1))) by (apply Hf; lia).
    rewrite (fin_real_of (cell NaN dtm (r + 1) c)) by (apply Hf; lia).
    rewrite (fin_real_of (cell NaN dtm (r + 1) (c + 1))) by (apply Hf; lia).
    apply tri_value_real.
Qed.

Lemma ruggedness_finite_witness :
  exists x, cell NaN (compute_tri ramp_east) 1 1 = Fin x /\ 0 <= x.
Proof.
  apply (ruggedness_finite ramp_east 1 1);
    [apply ramp_east_bounded | in_range | in_range].
Defined.
